(** * Verification of the [lessons] notebooks

    The repository is a set of Jupyter notebooks.  This development embeds
    the Python code cells that carry behaviour (the two [factorial]
    functions and their unit tests, the word-count pipeline, the pi
    map/reduce functions, the [print_hi_first] decorator and the logger
    calls) and proves the properties stated about them. *)

From Stdlib Require Import ZArith List Bool Lia Permutation Sorted.
From Stdlib Require Import Ascii String.
From Stdlib Require Import Reals Lra.
From Stdlib Require OrdersEx.
From stdpp Require Import base option list sorting gmap strings.

Local Open Scope string_scope.
Local Open Scope list_scope.
Local Open Scope Z_scope.

(** ** A small model of the Python runtime

    Python values as far as the cells use them, the exceptions they can
    raise, and an evaluation monad that records the primitive operations
    performed (in order) next to the outcome. *)

Inductive value : Type :=
  | VInt (n : Z)
  | VStr (s : string)
  | VNone.

Inductive exn : Type :=
  | ValueError (msg : string)
  | TypeError
  | RecursionError.

Inductive event : Type :=
  | EvLt | EvEq | EvSub | EvMul | EvCall.

Inductive outcome (A : Type) : Type :=
  | Returns (a : A)
  | Raises (e : exn).
Arguments Returns {A} a.
Arguments Raises {A} e.

(** A computation: the operations it performed and how it ended. *)
Record M (A : Type) : Type := mkM { trace : list event; result : outcome A }.
Arguments mkM {A} trace result.
Arguments trace {A} m.
Arguments result {A} m.

Definition ret {A} (a : A) : M A := mkM [] (Returns a).
Definition raise {A} (e : exn) : M A := mkM [] (Raises e).
Definition tell (ev : event) : M unit := mkM [ev] (Returns tt).

Definition bind {A B} (m : M A) (k : A -> M B) : M B :=
  match result m with
  | Returns a => let r := k a in mkM (trace m ++ trace r) (result r)
  | Raises e => mkM (trace m) (Raises e)
  end.

(** The computations form a monad in stdpp's sense, which gives the
    notations [x ← m; k] and [m ;; k]. *)
#[global] Instance M_ret : MRet M := @ret.
#[global] Instance M_bind : MBind M := fun A B k m => bind m k.

Definition value_eqb (v w : value) : bool :=
  match v, w with
  | VInt a, VInt b => Z.eqb a b
  | VStr s, VStr t => String.eqb s t
  | VNone, VNone => true
  | _, _ => false
  end.

(** [s * k] on a string: [k] copies, the empty string when [k <= 0]. *)
Fixpoint str_repeat (k : nat) (s : string) : string :=
  match k with
  | O => EmptyString
  | S k' => String.append s (str_repeat k' s)
  end.

(** [v < w] (Python 3): defined on two integers or two strings, a
    [TypeError] on anything else. *)
Definition py_lt (v w : value) : M bool :=
  tell EvLt ;;
  match v, w with
  | VInt a, VInt b => ret (Z.ltb a b)
  | VStr s, VStr t => ret (String.ltb s t)
  | _, _ => raise TypeError
  end.

(** [v == w]: never raises; values of different types are unequal. *)
Definition py_eq (v w : value) : M bool :=
  tell EvEq ;; ret (value_eqb v w).

(** [v - w]: integers only. *)
Definition py_sub (v w : value) : M value :=
  tell EvSub ;;
  match v, w with
  | VInt a, VInt b => ret (VInt (a - b))
  | _, _ => raise TypeError
  end.

(** [v * w]: integer product, or repetition of a string. *)
Definition py_mul (v w : value) : M value :=
  tell EvMul ;;
  match v, w with
  | VInt a, VInt b => ret (VInt (a * b))
  | VStr s, VInt k | VInt k, VStr s => ret (VStr (str_repeat (Z.to_nat k) s))
  | _, _ => raise TypeError
  end.

(** Entering a function body. *)
Definition call {A} (body : M A) : M A := tell EvCall ;; body.

(** ** The testing notebook: [factorial], first version

    [depth] is the number of stack frames the interpreter still allows:
    a call with none left raises [RecursionError]. *)
Module Initial.

Fixpoint factorial (depth : nat) (n : value) : M value :=
  match depth with
  | O => raise RecursionError
  | S d =>
      b ← py_eq n (VInt 1);
      if b : bool then ret n
      else
        m ← py_sub n (VInt 1);
        r ← call (factorial d m);
        py_mul n r
  end.

End Initial.

(** ** The testing notebook: [factorial], rewritten *)
Module Rewritten.

Fixpoint factorial (depth : nat) (n : value) : M value :=
  match depth with
  | O => raise RecursionError
  | S d =>
      neg ← py_lt n (VInt 0);
      if neg : bool then raise (ValueError "n must be non-negative")
      else
        z ← py_eq n (VInt 0);
        if z : bool then ret (VInt 1)
        else
          m ← py_sub n (VInt 1);
          r ← call (factorial d m);
          py_mul n r
  end.

End Rewritten.

(** ** The test class [TestFactorial]

    Each test method is a predicate on the implementation under test: it
    holds when the method passes. *)

Definition is_ValueError (e : exn) : bool :=
  match e with ValueError _ => true | _ => false end.
Definition is_TypeError (e : exn) : bool :=
  match e with TypeError => true | _ => false end.

Definition assertEqual (m : M value) (expected : value) : bool :=
  match result m with
  | Returns v => value_eqb v expected
  | Raises _ => false
  end.

Definition assertRaises (cls : exn -> bool) (m : M value) : bool :=
  match result m with
  | Returns _ => false
  | Raises e => cls e
  end.

Section TestFactorial.
Variable factorial : value -> M value.

Definition test_base_case : bool :=
  assertEqual (factorial (VInt 1)) (VInt 1).

Definition test_some_values : bool :=
  assertEqual (factorial (VInt 2)) (VInt 2)
  && assertEqual (factorial (VInt 3)) (VInt 6)
  && assertEqual (factorial (VInt 4)) (VInt 24)
  && assertEqual (factorial (VInt 10)) (VInt 3628800).

Definition test_boundary : bool :=
  assertEqual (factorial (VInt 0)) (VInt 1).

Definition test_negative_input : bool :=
  assertRaises is_ValueError (factorial (VInt (-1))).

Definition test_non_integer : bool :=
  assertRaises is_TypeError (factorial (VStr "bob")).
End TestFactorial.

(** The product [1 * 2 * ... * n], empty (so [1]) when [n <= 0]. *)
Definition product_upto (n : Z) : Z :=
  fold_right Z.mul 1 (map Z.of_nat (seq 1 (Z.to_nat n))).

(** ** The map/reduce notebook: counting words

    [text.split()] of a Python 2 [str]: the maximal runs of characters
    that are not whitespace, in order. *)

Definition is_space (c : ascii) : bool :=
  let n := nat_of_ascii c in
  (n =? 32)%nat || ((9 <=? n)%nat && (n <=? 13)%nat).

Definition flush_word (word : string) : list string :=
  match word with
  | EmptyString => []
  | _ => [word]
  end.

Fixpoint split_from (word : string) (text : string) : list string :=
  match text with
  | EmptyString => flush_word word
  | String c rest =>
      if is_space c then flush_word word ++ split_from EmptyString rest
      else split_from (String.append word (String c EmptyString)) rest
  end.

Definition split (text : string) : list string := split_from EmptyString text.

(** The rough solution: one pass over the words with a dictionary.
    [counts_per_word[word] += 1] reads the entry before it writes it, and
    a missing entry would be a [KeyError] ([None] here). *)
Definition count_word (counts : gmap string Z) (word : string)
  : option (gmap string Z) :=
  let counts :=
    if decide (counts !! word = None) then <[word := 0]> counts else counts in
  c ← counts !! word;
  Some (<[word := c + 1]> counts).

Fixpoint count_words (words : list string) (counts : gmap string Z)
  : option (gmap string Z) :=
  match words with
  | [] => Some counts
  | word :: rest => counts' ← count_word counts word; count_words rest counts'
  end.

Definition counts_per_word (text : string) : option (gmap string Z) :=
  count_words (split text) ∅.

(** Step 1: emit a [1] for every single word found. *)
Definition word_instances (text : string) : list (string * Z) :=
  foldl (fun acc word => acc ++ [(word, 1)]) [] (split text).

(** Python's order on [(str, int)] tuples: by the string, then by the
    integer. *)
Definition tuple_leb (x y : string * Z) : bool :=
  match String.compare x.1 y.1 with
  | Lt => true
  | Eq => x.2 <=? y.2
  | Gt => false
  end.

Definition tuple_le (x y : string * Z) : Prop := tuple_leb x y = true.

#[global] Instance tuple_le_dec (x y : string * Z) : Decision (tuple_le x y).
Proof. unfold tuple_le. apply _. Defined.

(** [sorted(...)]: a stable merge sort for that order. *)
Definition sorted (l : list (string * Z)) : list (string * Z) :=
  merge_sort tuple_le l.

(** [itertools.groupby(iterable, key)]: the maximal runs of consecutive
    elements with equal keys, each with its key. *)
Fixpoint groupby {A K : Type} `{EqDecision K} (key : A -> K) (l : list A)
  : list (K * list A) :=
  match l with
  | [] => []
  | x :: l' =>
      match groupby key l' with
      | (k, grp) :: groups =>
          if decide (key x = k) then (k, x :: grp) :: groups
          else (key x, [x]) :: (k, grp) :: groups
      | [] => [(key x, [x])]
      end
  end.

(** Step 2: what the framework does between map and reduce. *)
Definition collated_word_instances (word_instances : list (string * Z))
  : list (string * list Z) :=
  (fun kv : string * list (string * Z) => (kv.1, snd <$> kv.2))
    <$> groupby fst (sorted word_instances).

(** The built-in [sum] of a list of integers. *)
Definition py_sum (l : list Z) : Z := foldl Z.add 0 l.

(** Step 3: for each word, sum the counts. *)
Definition word_counts (collated : list (string * list Z)) : gmap string Z :=
  foldl (fun counts wc => <[wc.1 := py_sum wc.2]> counts) ∅ collated.

(** The three steps in a row. *)
Definition pipeline (text : string) : gmap string Z :=
  word_counts (collated_word_instances (word_instances text)).

(** ** The map/reduce notebook: estimating pi

    [random.random()] is modelled by the sequence [draws] of the numbers
    it returns after [random.seed(...)], read through a cursor; the
    coordinates are real numbers. *)

Definition random (draws : nat -> R) (cursor : nat) : R * nat :=
  (draws cursor, S cursor).

Definition Rltb (a b : R) : bool := if Rlt_dec a b then true else false.

(** [sum(test(...) for i in xrange(n))]: [True] counts for one. *)
Fixpoint count_hits (dart : nat -> bool * nat) (n : nat) (cursor : nat)
  (inside : Z) : Z * nat :=
  match n with
  | O => (inside, cursor)
  | S n' =>
      let (hit, cursor') := dart cursor in
      count_hits dart n' cursor' (inside + (if hit then 1 else 0))
  end.

Module Pi.

(** [math.sqrt(random.random() ** 2 + random.random() ** 2) < 1.] *)
Definition dart (draws : nat -> R) (cursor : nat) : bool * nat :=
  let (x, cursor) := random draws cursor in
  let (y, cursor) := random draws cursor in
  (Rltb (sqrt (x ^ 2 + y ^ 2)) 1, cursor).

Definition mapfn (draws : nat -> R) (key value : Z)
  : list (string * (Z * Z)) :=
  let inside := (count_hits (dart draws) (Z.to_nat value) 0 0).1 in
  [("totals", (inside, value))].

Definition reducefn (key : string) (value : list (Z * Z)) : Z * Z :=
  foldl (fun acc v => (acc.1 + v.1, acc.2 + v.2)) (0, 0) value.

End Pi.

Module PiOptimized.

(** [(random.random() ** 2 + random.random() ** 2) < 1.] *)
Definition dart (draws : nat -> R) (cursor : nat) : bool * nat :=
  let (x, cursor) := random draws cursor in
  let (y, cursor) := random draws cursor in
  (Rltb (x ^ 2 + y ^ 2) 1, cursor).

Definition mapfn (draws : nat -> R) (key value : Z)
  : list (string * (Z * Z)) :=
  let inside := (count_hits (dart draws) (Z.to_nat value) 0 0).1 in
  [("totals", (inside, value))].

End PiOptimized.

(** ** The decorator notebook

    A cell runs against the lines printed so far and whatever other
    state [U] the program has.  A function of no arguments is a
    computation awaiting its call. *)

Record world (U : Type) : Type := mkWorld { stdout : list string; user : U }.
Arguments mkWorld {U} stdout user.
Arguments stdout {U} w.
Arguments user {U} w.

Definition Py (U A : Type) : Type := world U -> A * world U.
Definition func0 (U A : Type) : Type := unit -> Py U A.

Definition py_ret {U A} (a : A) : Py U A := fun w => (a, w).
Definition py_bind {U A B} (m : Py U A) (k : A -> Py U B) : Py U B :=
  fun w => let (a, w') := m w in k a w'.

Definition print {U} (line : string) : Py U unit :=
  fun w => (tt, mkWorld (stdout w ++ [line]) (user w)).

Definition print_hi_first {U A} (func : func0 U A) : func0 U A :=
  let inner : func0 U A :=
    fun _ => py_bind (print "hi") (fun _ => func tt) in
  inner.

Definition print_three {U} : func0 U value :=
  fun _ => py_bind (print "three") (fun _ => py_ret VNone).

(** The notebook's global names that hold functions; [def] binds a name,
    and a decorated [def] binds it to what the decorator returns. *)
Definition def {U A} (name : string) (body : func0 U A)
  (globals : gmap string (func0 U A)) : gmap string (func0 U A) :=
  <[name := body]> globals.

Definition def_decorated {U A} (decorator : func0 U A -> func0 U A)
  (name : string) (body : func0 U A)
  (globals : gmap string (func0 U A)) : gmap string (func0 U A) :=
  <[name := decorator body]> globals.

(** A function that counts its own calls in the first component of the
    program state and otherwise behaves as [f]. *)
Definition counted {U A} (f : func0 U A) : func0 (nat * U) A :=
  fun _ w =>
    let (r, w') := f tt (mkWorld (stdout w) (user w).2) in
    (r, mkWorld (stdout w') (S (user w).1, user w')).

(** ** The logging notebook *)

(** Modelled from the spec: Python's [logging] package is used by the
    notebook but is not part of the repository.  The levels are the
    five the notebook lists, in its order of significance, with
    [NOTSET] for a logger whose level was never set; a logger without a
    level of its own takes the root logger's; a message that passes the
    logger's level goes to the logger's handlers and then to the root
    logger's, each of which may have a level of its own. *)
Inductive level : Type :=
  | NOTSET | DEBUG | INFO | WARNING | ERROR | CRITICAL.

Definition level_value (l : level) : Z :=
  match l with
  | NOTSET => 0
  | DEBUG => 10
  | INFO => 20
  | WARNING => 30
  | ERROR => 40
  | CRITICAL => 50
  end.

(** A stream handler writing the bare message ([format='%(message)s']). *)
Record handler : Type := mkHandler { handler_level : level }.

Record logger : Type :=
  mkLogger { logger_level : level; handlers : list handler }.

Record logging : Type :=
  mkLogging { root : logger; log : logger; stderr : list string }.

(** Modelled from the spec: [Logger.getEffectiveLevel] for the logger
    [log], a child of the root logger. *)
Definition getEffectiveLevel (st : logging) : level :=
  match logger_level (log st) with
  | NOTSET => logger_level (root st)
  | l => l
  end.

(** Modelled from the spec: [Logger.isEnabledFor]. *)
Definition isEnabledFor (lvl : level) (st : logging) : bool :=
  level_value (getEffectiveLevel st) <=? level_value lvl.

(** Modelled from the spec: what the handlers reached by a record write,
    the logger's own first, then the root's. *)
Definition callHandlers (lvl : level) (msg : string) (st : logging)
  : list string :=
  flat_map
    (fun h => if level_value (handler_level h) <=? level_value lvl
              then [msg] else [])
    (handlers (log st) ++ handlers (root st)).

(** Modelled from the spec: [log.log(lvl, msg)]. *)
Definition log_at (lvl : level) (msg : string) (st : logging) : logging :=
  if isEnabledFor lvl st
  then mkLogging (root st) (log st) (stderr st ++ callHandlers lvl msg st)
  else st.

(** The five logging methods. *)
Inductive method : Type := debug | info | warning | error | critical.

Definition method_level (m : method) : level :=
  match m with
  | debug => DEBUG
  | info => INFO
  | warning => WARNING
  | error => ERROR
  | critical => CRITICAL
  end.

Definition log_call (m : method) (msg : string) (st : logging) : logging :=
  log_at (method_level m) msg st.

(** Modelled from the spec: [log.setLevel(lvl)]. *)
Definition setLevel (lvl : level) (st : logging) : logging :=
  mkLogging (root st) (mkLogger lvl (handlers (log st))) (stderr st).

(** The first cell: [logging.basicConfig(format='%(message)s',
    level=logging.DEBUG, ...)] gives the root logger the level [DEBUG]
    and one stream handler; [logging.getLogger(__name__)] creates [log]
    with no level and no handler. *)
Definition configured (out : list string) : logging :=
  mkLogging (mkLogger DEBUG [mkHandler NOTSET]) (mkLogger NOTSET []) out.

(** The logging cells up to the one that sets the level to [INFO]. *)
Definition cell3 (st : logging) : logging :=
  log_call info "my first log message" st.
Definition cell4 (st : logging) : logging :=
  log_call info "my info message" (log_call debug "my debug message" st).
Definition cell5 (st : logging) : logging :=
  log_call info "my info message"
    (log_call debug "my debug message" (setLevel INFO st)).

(** ** Notions used to state the properties of the word count *)

(** Elements with equal keys sit next to each other. *)
Fixpoint contiguous {A K : Type} (key : A -> K) (l : list A) : Prop :=
  match l with
  | [] => True
  | x :: l' =>
      match l' with
      | [] => True
      | y :: _ => key x = key y \/ key x ∉ key <$> l'
      end /\ contiguous key l'
  end.

(** The number of times [w] occurs among [words]. *)
Definition occurrences (w : string) (words : list string) : Z :=
  Z.of_nat (length (filter (fun x => x = w) words)).

(** What a word maps to when it occurs [c] times. *)
Definition count_entry (c : Z) : option Z :=
  if decide (c = 0) then None else Some c.


(** ** Further notions for the testing notebook *)

(** The operations the rewritten [factorial] performs on an integer
    [n >= 0] when it has frames enough: the tests and the subtraction
    before each of the [n] calls, the two tests of the innermost frame,
    then the [n] multiplications on the way back. *)
Definition factorial_trace (n : nat) : list event :=
  concat (replicate n [EvLt; EvEq; EvSub; EvCall])
  ++ [EvLt; EvEq] ++ replicate n EvMul.

(** How [unittest] reports one test method: passed, failed (an
    assertion did not hold) or ended in an error (another exception). *)
Inductive verdict : Type := Passed | Failed | Errored.

Definition verdict_mark (v : verdict) : string :=
  match v with
  | Passed => "."
  | Failed => "F"
  | Errored => "E"
  end.

Definition assertEqual_verdict (m : M value) (expected : value) : verdict :=
  match result m with
  | Returns v => if value_eqb v expected then Passed else Failed
  | Raises _ => Errored
  end.

Definition assertRaises_verdict (cls : exn -> bool) (m : M value) : verdict :=
  match result m with
  | Returns _ => Failed
  | Raises e => if cls e then Passed else Errored
  end.

(** The statements of a test method run in order, and the first one
    that does not pass ends the method. *)
Fixpoint first_problem (vs : list verdict) : verdict :=
  match vs with
  | [] => Passed
  | Passed :: vs' => first_problem vs'
  | v :: _ => v
  end.

Section RunTests.
Variable factorial : value -> M value.

Definition verdict_base_case : verdict :=
  assertEqual_verdict (factorial (VInt 1)) (VInt 1).

Definition verdict_some_values : verdict :=
  first_problem
    [assertEqual_verdict (factorial (VInt 2)) (VInt 2);
     assertEqual_verdict (factorial (VInt 3)) (VInt 6);
     assertEqual_verdict (factorial (VInt 4)) (VInt 24);
     assertEqual_verdict (factorial (VInt 10)) (VInt 3628800)].

Definition verdict_boundary : verdict :=
  assertEqual_verdict (factorial (VInt 0)) (VInt 1).

Definition verdict_negative_input : verdict :=
  assertRaises_verdict is_ValueError (factorial (VInt (-1))).

Definition verdict_non_integer : verdict :=
  assertRaises_verdict is_TypeError (factorial (VStr "bob")).

(** [run_tests()]: the runner takes the methods of [TestFactorial] in
    the order of their names and prints one mark for each; this is that
    line of marks. *)
Definition run_tests : string :=
  String.concat ""
    (verdict_mark <$>
       [verdict_base_case; verdict_boundary; verdict_negative_input;
        verdict_non_integer; verdict_some_values]).
End RunTests.

(** ** Further notions for the word count *)

(** [sum(counts.values())] of a dictionary of counts. *)
Definition total_count (counts : gmap string Z) : Z :=
  py_sum (map_to_list counts).*2.

(** The word count as a map function and a reduce function, each
    yielding a list of pairs. *)
Module WordCount.

Definition mapfn (key value : string) : list (string * Z) :=
  (fun word => (word, 1)) <$> split value.

Definition reducefn (key : string) (value : list Z) : list (string * Z) :=
  [(key, py_sum value)].

End WordCount.

(** Whether a string holds a whitespace character, and whether it holds
    nothing else. *)
Fixpoint has_space (s : string) : bool :=
  match s with
  | EmptyString => false
  | String c rest => is_space c || has_space rest
  end.

Fixpoint all_space (s : string) : bool :=
  match s with
  | EmptyString => true
  | String c rest => is_space c && all_space rest
  end.

(** ** Further notions for the pi estimate *)

Definition Rleb (a b : R) : bool := if Rle_dec a b then true else false.

(** The naive method: [math.sqrt(random.random() ** 2 +
    random.random() ** 2) <= 1.] summed over [range(total)]. *)
Module PiNaive.

Definition dart (draws : nat -> R) (cursor : nat) : bool * nat :=
  let (x, cursor) := random draws cursor in
  let (y, cursor) := random draws cursor in
  (Rleb (sqrt (x ^ 2 + y ^ 2)) 1, cursor).

Definition inside (draws : nat -> R) (total : Z) : Z :=
  (count_hits (dart draws) (Z.to_nat total) 0 0).1.

End PiNaive.

(** [4.0 * inside / total] over the reals; dividing by a zero [total]
    is a [ZeroDivisionError] ([None] here). *)
Definition pi_approximation (inside total : Z) : option R :=
  if decide (total = 0) then None
  else Some (4 * IZR inside / IZR total)%R.

(** ** Further notions for the decorator notebook *)

(** A function object with the attributes the notebook inspects. *)
Record function (U A : Type) : Type :=
  mkFunction { fn_name : string; fn_doc : option string; fn_call : func0 U A }.
Arguments mkFunction {U A} fn_name fn_doc fn_call.
Arguments fn_name {U A} f.
Arguments fn_doc {U A} f.
Arguments fn_call {U A} f.

(** [functools.wraps(wrapped)] applied to [inner]: [inner] with the name
    and the docstring of [wrapped]. *)
Definition wraps {U A} (wrapped inner : function U A) : function U A :=
  mkFunction (fn_name wrapped) (fn_doc wrapped) (fn_call inner).

(** [print_hi_first] on function objects, as first written: what it
    returns is the function [inner], which has no docstring. *)
Module Unwrapped.

Definition print_hi_first {U A} (func : function U A) : function U A :=
  let inner := mkFunction "inner" None (print_hi_first (fn_call func)) in
  inner.

End Unwrapped.

(** [print_hi_first] with [@wraps(func)] on [inner]. *)
Module Wrapped.

Definition print_hi_first {U A} (func : function U A) : function U A :=
  let inner :=
    wraps func (mkFunction "inner" None (print_hi_first (fn_call func))) in
  inner.

End Wrapped.

(** Cells that print and may end in an exception: a computation takes
    the lines printed so far and gives its outcome and the lines printed
    after it. *)
Definition IO (A : Type) : Type := list string -> outcome A * list string.

Definition io_ret {A} (a : A) : IO A := fun out => (Returns a, out).
Definition io_raise {A} (e : exn) : IO A := fun out => (Raises e, out).
Definition io_print (line : string) : IO unit :=
  fun out => (Returns tt, out ++ [line]).
Definition io_bind {A B} (m : IO A) (k : A -> IO B) : IO B :=
  fun out =>
    match m out with
    | (Returns a, out') => k a out'
    | (Raises e, out') => (Raises e, out')
    end.

(** A function called with positional and keyword arguments. *)
Definition pyfunction : Type :=
  list value -> list (string * value) -> IO value.

(** [total + x] as [sum] uses it. *)
Definition py_add (v w : value) : outcome value :=
  match v, w with
  | VInt a, VInt b => Returns (VInt (a + b))
  | VStr s, VStr t => Returns (VStr (String.append s t))
  | _, _ => Raises TypeError
  end.

Section PrintArgs.
(** How [print] writes a tuple of arguments, a dictionary of keyword
    arguments and a result: Python's own conversions to text. *)
Variable str_args : list value -> string.
Variable str_kwargs : list (string * value) -> string.
Variable str_value : value -> string.

Definition print_args_and_result (func : pyfunction) : pyfunction :=
  let inner : pyfunction := fun args kwargs =>
    io_bind (io_print (String.append "args: " (str_args args))) (fun _ =>
    io_bind (io_print (String.append "kwargs: " (str_kwargs kwargs))) (fun _ =>
    io_bind (func args kwargs) (fun result =>
    io_bind (io_print (String.append "result: " (str_value result))) (fun _ =>
    io_ret result)))) in
  inner.
End PrintArgs.

Module Decorated.

(** The loop of [sum]: [total += x] for each argument in turn. *)
Fixpoint sum_loop (total : value) (args : list value) : outcome value :=
  match args with
  | [] => Returns total
  | x :: rest =>
      match py_add total x with
      | Returns total' => sum_loop total' rest
      | Raises e => Raises e
      end
  end.

(** [sum], defined with a starred parameter [args]: any number of
    positional arguments, and no keyword argument. *)
Definition sum : pyfunction := fun args kwargs =>
  match kwargs with
  | [] => fun out => (sum_loop (VInt 0) args, out)
  | _ :: _ => io_raise TypeError
  end.

End Decorated.

(** The integers among some values, while all of them are integers. *)
Fixpoint ints_of (args : list value) : option (list Z) :=
  match args with
  | [] => Some []
  | VInt n :: rest => cons n <$> ints_of rest
  | _ :: _ => None
  end.

(** * Properties *)

(** ** The cells, run on the notebooks' own inputs *)

Example factorial_10 :
  result (Rewritten.factorial 11 (VInt 10)) = Returns (VInt 3628800).
Proof. reflexivity. Qed.

Example factorial_initial_bob :
  Initial.factorial 5 (VStr "bob") = mkM [EvEq; EvSub] (Raises TypeError).
Proof. reflexivity. Qed.

Example split_words :
  split "  the quick  brown fox " = ["the"; "quick"; "brown"; "fox"].
Proof. reflexivity. Qed.

Example collated_example :
  collated_word_instances (word_instances "a wood chuck a wood a")
  = [("a", [1; 1; 1]); ("chuck", [1]); ("wood", [1; 1])].
Proof. vm_compute. reflexivity. Qed.

Example pipeline_example :
  pipeline "a wood chuck a wood a"
  = <["a" := 3]> (<["chuck" := 1]> (<["wood" := 2]> ∅)).
Proof. vm_compute. reflexivity. Qed.

Example reducefn_example :
  Pi.reducefn "totals" [(7, 10); (8, 10); (6, 10)] = (21, 30).
Proof. reflexivity. Qed.

(** ** The two [factorial] functions *)

Lemma product_upto_0 : product_upto 0 = 1.
Proof. reflexivity. Qed.

Lemma fold_mul_snoc (l : list Z) (x : Z) :
  fold_right Z.mul 1 (l ++ [x]) = fold_right Z.mul 1 l * x.
Proof.
  induction l as [|y l IH]; simpl.
  - lia.
  - rewrite IH. lia.
Qed.

Lemma product_upto_succ (k : nat) :
  product_upto (Z.of_nat (S k)) = Z.of_nat (S k) * product_upto (Z.of_nat k).
Proof.
  unfold product_upto. rewrite !Nat2Z.id, seq_S, map_app.
  cbn [map]. rewrite fold_mul_snoc. lia.
Qed.

Lemma product_upto_nonpos (n : Z) : n <= 0 -> product_upto n = 1.
Proof.
  intros H. unfold product_upto.
  replace (Z.to_nat n) with 0%nat by lia. reflexivity.
Qed.

(** Unfolding one frame of each function on an integer argument. *)
Lemma rewritten_step (d : nat) (n : Z) :
  result (Rewritten.factorial (S d) (VInt n)) =
    if n <? 0 then Raises (ValueError "n must be non-negative")
    else if n =? 0 then Returns (VInt 1)
    else match result (Rewritten.factorial d (VInt (n - 1))) with
         | Returns (VInt r) => Returns (VInt (n * r))
         | Returns (VStr s) => Returns (VStr (str_repeat (Z.to_nat n) s))
         | Returns VNone => Raises TypeError
         | Raises e => Raises e
         end.
Proof.
  cbn [Rewritten.factorial]. unfold mbind, M_bind, bind; cbn.
  destruct (n <? 0); [reflexivity|]. cbn.
  destruct (n =? 0); [reflexivity|]. cbn.
  destruct (result (Rewritten.factorial d (VInt (n - 1)))) as [[r|s|]|e];
    reflexivity.
Qed.

Lemma initial_step (d : nat) (n : Z) :
  result (Initial.factorial (S d) (VInt n)) =
    if n =? 1 then Returns (VInt n)
    else match result (Initial.factorial d (VInt (n - 1))) with
         | Returns (VInt r) => Returns (VInt (n * r))
         | Returns (VStr s) => Returns (VStr (str_repeat (Z.to_nat n) s))
         | Returns VNone => Raises TypeError
         | Raises e => Raises e
         end.
Proof.
  cbn [Initial.factorial]. unfold mbind, M_bind, bind; cbn.
  destruct (n =? 1); [reflexivity|]. cbn.
  destruct (result (Initial.factorial d (VInt (n - 1)))) as [[r|s|]|e];
    reflexivity.
Qed.

Lemma rewritten_returns (k d : nat) :
  (k < d)%nat ->
  result (Rewritten.factorial d (VInt (Z.of_nat k)))
  = Returns (VInt (product_upto (Z.of_nat k))).
Proof.
  revert d. induction k as [|k IH]; intros d Hd.
  - destruct d as [|d]; [lia|]. rewrite rewritten_step. reflexivity.
  - destruct d as [|d]; [lia|]. rewrite rewritten_step.
    destruct (Z.ltb_spec (Z.of_nat (S k)) 0) as [?|_]; [lia|].
    destruct (Z.eqb_spec (Z.of_nat (S k)) 0) as [?|_]; [lia|].
    replace (Z.of_nat (S k) - 1) with (Z.of_nat k) by lia.
    rewrite IH by lia. by rewrite product_upto_succ.
Qed.

Lemma rewritten_negative (d : nat) (n : Z) :
  n < 0 ->
  Rewritten.factorial (S d) (VInt n)
  = mkM [EvLt] (Raises (ValueError "n must be non-negative")).
Proof.
  intros H. cbn [Rewritten.factorial]. unfold mbind, M_bind, bind; cbn.
  destruct (Z.ltb_spec n 0) as [_|?]; [reflexivity | lia].
Qed.

Lemma rewritten_no_ValueError (k d : nat) (msg : string) :
  result (Rewritten.factorial d (VInt (Z.of_nat k))) <> Raises (ValueError msg).
Proof.
  revert d. induction k as [|k IH]; intros [|d]; try discriminate.
  rewrite rewritten_step.
  destruct (Z.ltb_spec (Z.of_nat (S k)) 0) as [?|_]; [lia|].
  destruct (Z.eqb_spec (Z.of_nat (S k)) 0) as [?|_]; [lia|].
  replace (Z.of_nat (S k) - 1) with (Z.of_nat k) by lia.
  specialize (IH d).
  destruct (result (Rewritten.factorial d (VInt (Z.of_nat k)))) as [[r|s|]|e];
    congruence.
Qed.

Lemma initial_returns (k d : nat) :
  (k < d)%nat ->
  result (Initial.factorial d (VInt (Z.of_nat (S k))))
  = Returns (VInt (product_upto (Z.of_nat (S k)))).
Proof.
  revert d. induction k as [|k IH]; intros d Hd.
  - destruct d as [|d]; [lia|]. rewrite initial_step. reflexivity.
  - destruct d as [|d]; [lia|]. rewrite initial_step.
    destruct (Z.eqb_spec (Z.of_nat (S (S k))) 1) as [?|_]; [lia|].
    replace (Z.of_nat (S (S k)) - 1) with (Z.of_nat (S k)) by lia.
    rewrite IH by lia. by rewrite (product_upto_succ (S k)).
Qed.

Lemma initial_diverges (d : nat) (n : Z) :
  n <= 0 -> result (Initial.factorial d (VInt n)) = Raises RecursionError.
Proof.
  revert n. induction d as [|d IH]; intros n Hn; [reflexivity|].
  rewrite initial_step.
  destruct (Z.eqb_spec n 1) as [?|_]; [lia|].
  by rewrite IH by lia.
Qed.

(** C1. The rewritten [factorial], run with at least one stack frame,
    raises [ValueError] exactly on the negative integers; on every
    integer [n >= 0] it returns the product [1 * 2 * ... * n] as soon as
    the interpreter allows more than [n] frames, with [factorial(0) = 1];
    and the sad-path test [test_negative_input] passes. *)
Theorem factorial_rewritten_correct :
  (forall (d : nat) (n : Z),
      (exists msg,
          result (Rewritten.factorial (S d) (VInt n)) = Raises (ValueError msg))
      <-> n < 0)
  /\ (forall (n : Z) (d : nat),
         0 <= n -> (Z.to_nat n < d)%nat ->
         result (Rewritten.factorial d (VInt n))
         = Returns (VInt (product_upto n)))
  /\ (forall d : nat,
         result (Rewritten.factorial (S d) (VInt 0)) = Returns (VInt 1))
  /\ (forall d : nat, test_negative_input (Rewritten.factorial (S d)) = true).
Proof.
  split; [|split; [|split]].
  - intros d n. split.
    + intros [msg Hmsg].
      destruct (Z.lt_ge_cases n 0) as [Hn|Hn]; [exact Hn|].
      exfalso. apply (rewritten_no_ValueError (Z.to_nat n) (S d) msg).
      by rewrite Z2Nat.id.
    + intros Hn. eexists. by rewrite rewritten_negative.
  - intros n d Hn Hd. rewrite <- (Z2Nat.id n Hn).
    apply rewritten_returns. lia.
  - intros d. apply (rewritten_returns 0). lia.
  - intros d. unfold test_negative_input, assertRaises.
    by rewrite rewritten_negative.
Qed.

Lemma factorial_rewritten_correct_witness :
  result (Rewritten.factorial 6 (VInt 5)) = Returns (VInt 120)
  /\ ~ (exists msg,
          result (Rewritten.factorial 6 (VInt 5)) = Raises (ValueError msg)).
Proof.
  split.
  - apply (proj1 (proj2 factorial_rewritten_correct) 5 6%nat); simpl; lia.
  - intros H. apply (proj1 factorial_rewritten_correct 5%nat 5) in H. lia.
Defined.

(** C2. The first [factorial] (base case [n == 1] only) returns the
    product [1 * 2 * ... * n] on every integer [n >= 1] once [n] frames
    are allowed, so the happy-path tests pass; on every integer [n <= 0]
    it ends in [RecursionError] whatever the number of frames allowed, so
    [test_boundary] and [test_negative_input] fail against it. *)
Theorem factorial_initial_behaviour :
  (forall (n : Z) (d : nat),
      1 <= n -> (Z.to_nat n <= d)%nat ->
      result (Initial.factorial d (VInt n)) = Returns (VInt (product_upto n)))
  /\ (forall (n : Z) (d : nat),
         n <= 0 -> result (Initial.factorial d (VInt n)) = Raises RecursionError)
  /\ (forall d : nat,
         (10 <= d)%nat ->
         test_base_case (Initial.factorial d) = true
         /\ test_some_values (Initial.factorial d) = true)
  /\ (forall d : nat,
         test_boundary (Initial.factorial d) = false
         /\ test_negative_input (Initial.factorial d) = false).
Proof.
  assert (Hret : forall (n : Z) (d : nat),
             1 <= n -> (Z.to_nat n <= d)%nat ->
             result (Initial.factorial d (VInt n))
             = Returns (VInt (product_upto n))).
  { intros n d Hn Hd.
    replace n with (Z.of_nat (S (Z.to_nat (n - 1)))) by lia.
    apply initial_returns. lia. }
  split; [exact Hret|]. split; [|split].
  - intros n d Hn. by apply initial_diverges.
  - intros d Hd. unfold test_base_case, test_some_values, assertEqual.
    rewrite !Hret by (simpl; lia). split; reflexivity.
  - intros d. unfold test_boundary, test_negative_input, assertEqual, assertRaises.
    rewrite !initial_diverges by lia. split; reflexivity.
Qed.

Lemma factorial_initial_behaviour_witness :
  result (Initial.factorial 4 (VInt 4)) = Returns (VInt 24)
  /\ result (Initial.factorial 3000 (VInt 0)) = Raises RecursionError
  /\ test_some_values (Initial.factorial 10) = true.
Proof.
  split; [|split].
  - apply (proj1 factorial_initial_behaviour 4 4%nat); simpl; lia.
  - apply (proj1 (proj2 factorial_initial_behaviour) 0 3000%nat). lia.
  - apply (proj1 (proj2 (proj2 factorial_initial_behaviour)) 10%nat). lia.
Defined.

(** C9. On an argument that cannot be ordered against [0] (any string,
    such as ['bob'], or [None]) the rewritten [factorial] ends in
    [TypeError], and the comparison [n < 0] is the only operation it has
    performed: no equality test, subtraction, call or multiplication.
    The error is the comparison's own, and [test_non_integer] passes. *)
Theorem factorial_rewritten_non_integer :
  (forall (d : nat) (s : string),
      Rewritten.factorial (S d) (VStr s) = mkM [EvLt] (Raises TypeError))
  /\ (forall d : nat,
         Rewritten.factorial (S d) VNone = mkM [EvLt] (Raises TypeError))
  /\ (forall s : string, py_lt (VStr s) (VInt 0) = mkM [EvLt] (Raises TypeError))
  /\ (forall d : nat, test_non_integer (Rewritten.factorial (S d)) = true).
Proof.
  split; [|split; [|split]].
  - intros d s. cbn [Rewritten.factorial]. reflexivity.
  - intros d. cbn [Rewritten.factorial]. reflexivity.
  - intros s. reflexivity.
  - intros d. unfold test_non_integer, assertRaises.
    cbn [Rewritten.factorial]. reflexivity.
Qed.

(** ** The word-count pipeline *)

Section GroupBy.
Context {A K : Type} `{EqDecision K} (key : A -> K).

Lemma filter_key_absent (k : K) (l : list A) :
  k ∉ key <$> l -> filter (fun x => key x = k) l = [].
Proof.
  induction l as [|x l IH]; [done|].
  rewrite fmap_cons, not_elem_of_cons. intros [Hx Hl].
  rewrite filter_cons_False by done. by apply IH.
Qed.

Lemma groupby_cons (x : A) (l : list A) :
  groupby key (x :: l) =
    match groupby key l with
    | (k, grp) :: groups =>
        if decide (key x = k) then (k, x :: grp) :: groups
        else (key x, [x]) :: (k, grp) :: groups
    | [] => [(key x, [x])]
    end.
Proof. reflexivity. Qed.

Lemma groupby_nil_inv (l : list A) : groupby key l = [] -> l = [].
Proof.
  destruct l as [|x l]; [done|]. rewrite groupby_cons.
  destruct (groupby key l) as [|[k grp] groups]; [done|].
  by case_decide.
Qed.

Lemma groupby_head (x : A) (l : list A) :
  exists grp groups, groupby key (x :: l) = (key x, grp) :: groups.
Proof.
  rewrite groupby_cons.
  destruct (groupby key l) as [|[k grp] groups]; [by eauto|].
  case_decide; subst; eauto.
Qed.

Lemma groupby_keys (l : list A) (k : K) :
  k ∈ (groupby key l).*1 <-> k ∈ key <$> l.
Proof.
  induction l as [|x l IH]; [done|]. rewrite groupby_cons.
  destruct (groupby key l) as [|[k' grp] groups] eqn:Hg.
  - apply groupby_nil_inv in Hg as ->. done.
  - rewrite fmap_cons, elem_of_cons, <- IH.
    case_decide as Hk; cbn; rewrite !elem_of_cons; [|tauto].
    subst k'. tauto.
Qed.

Lemma contiguous_absent (x : A) (l : list A) k grp groups :
  contiguous key (x :: l) ->
  groupby key l = (k, grp) :: groups ->
  key x <> k -> key x ∉ key <$> l.
Proof.
  intros [Hx _] Hg Hk. destruct l as [|y l]; [done|].
  destruct (groupby_head y l) as (grp0 & groups0 & Hy).
  rewrite Hy in Hg. injection Hg as Hky _ _.
  destruct Hx as [Hx|Hx]; [congruence | exact Hx].
Qed.

Lemma groupby_NoDup (l : list A) :
  contiguous key l -> NoDup (groupby key l).*1.
Proof.
  induction l as [|x l IH]; [constructor|].
  intros Hxl. pose proof Hxl as [_ Hl]. specialize (IH Hl).
  rewrite groupby_cons.
  destruct (groupby key l) as [|[k grp] groups] eqn:Hg.
  - cbn. apply NoDup_singleton.
  - case_decide as Hk; [exact IH|].
    cbn. apply NoDup_cons. split; [|exact IH].
    change (key x ∉ ((k, grp) :: groups).*1).
    rewrite <- Hg, groupby_keys. by eapply contiguous_absent.
Qed.

Lemma groupby_group (l : list A) (k : K) (grp : list A) :
  contiguous key l ->
  (k, grp) ∈ groupby key l -> grp = filter (fun x => key x = k) l.
Proof.
  revert k grp. induction l as [|x l IH]; intros k grp.
  { intros _ Hin. by apply elem_of_nil in Hin. }
  intros Hxl. pose proof Hxl as [_ Hl].
  pose proof (groupby_NoDup l Hl) as Hnd.
  rewrite groupby_cons.
  destruct (groupby key l) as [|[k' grp'] groups] eqn:Hg.
  - apply groupby_nil_inv in Hg as ->.
    intros Heq%list_elem_of_singleton. injection Heq as -> ->.
    by rewrite filter_cons_True.
  - assert (Hkeys : forall k0, k0 ∈ ((k', grp') :: groups).*1 <-> k0 ∈ key <$> l).
    { intros k0. rewrite <- Hg. apply groupby_keys. }
    case_decide as Hk.
    + subst k'. intros [Heq|Hin]%elem_of_cons.
      * injection Heq as -> ->. rewrite filter_cons_True by done.
        f_equal. apply IH; [done|]. apply elem_of_cons. by left.
      * assert (key x <> k).
        { intros <-. cbn in Hnd. apply NoDup_cons in Hnd as [Hnd _].
          apply Hnd. apply list_elem_of_fmap. by exists (key x, grp). }
        rewrite filter_cons_False by done.
        apply IH; [done|]. apply elem_of_cons. by right.
    + assert (Hnotin : key x ∉ key <$> l) by by eapply contiguous_absent.
      intros [Heq|Hin]%elem_of_cons.
      * injection Heq as -> ->. rewrite filter_cons_True by done.
        f_equal. symmetry. by apply filter_key_absent.
      * assert (key x <> k).
        { intros <-. apply Hnotin, Hkeys, list_elem_of_fmap.
          by exists (key x, grp). }
        rewrite filter_cons_False by done.
        by apply IH.
Qed.
End GroupBy.

(** The order on strings, and on [(str, int)] tuples. *)

Lemma str_compare_OT (s t : string) :
  String.compare s t = OrdersEx.String_as_OT.compare s t.
Proof.
  revert t. induction s as [|a s IH]; intros [|b t]; reflexivity.
Qed.

Lemma str_compare_refl (s : string) : String.compare s s = Eq.
Proof.
  induction s as [|a s IH]; [reflexivity|].
  cbn [String.compare]. unfold Ascii.compare. by rewrite N.compare_refl.
Qed.

Lemma str_compare_lt_trans (a b c : string) :
  String.compare a b = Lt -> String.compare b c = Lt -> String.compare a c = Lt.
Proof.
  rewrite !str_compare_OT.
  apply (@transitivity _ _
           (@StrictOrder_Transitive _ _ OrdersEx.String_as_OT.lt_strorder)).
Qed.

Lemma tuple_le_spec (x y : string * Z) :
  tuple_le x y <->
  String.compare x.1 y.1 = Lt \/ (x.1 = y.1 /\ x.2 <= y.2).
Proof.
  unfold tuple_le, tuple_leb.
  destruct (String.compare x.1 y.1) eqn:Hc.
  - apply String.compare_eq_iff in Hc. rewrite Z.leb_le. intuition discriminate.
  - tauto.
  - split; [discriminate|]. intros [?|[Heq _]]; [discriminate|].
    rewrite Heq, str_compare_refl in Hc. discriminate.
Qed.

#[global] Instance tuple_le_trans : Transitive tuple_le.
Proof.
  intros x y z. rewrite !tuple_le_spec.
  intros [Hxy|[Hxy Hxy']] [Hyz|[Hyz Hyz']].
  - left. by eapply str_compare_lt_trans.
  - left. by rewrite <- Hyz.
  - left. by rewrite Hxy.
  - right. split; [congruence | lia].
Qed.

#[global] Instance tuple_le_total : Total tuple_le.
Proof.
  intros x y. rewrite !tuple_le_spec.
  destruct (String.compare x.1 y.1) eqn:Hc.
  - apply String.compare_eq_iff in Hc.
    destruct (Z.le_ge_cases x.2 y.2); [left | right]; right; split;
      (congruence || lia).
  - by left; left.
  - right; left. rewrite String.compare_antisym, Hc. reflexivity.
Qed.

#[global] Instance tuple_le_antisym : AntiSymm (=) tuple_le.
Proof.
  intros [a n] [b m]. rewrite !tuple_le_spec. cbn.
  intros [Hab|[Hab Hnm]] [Hba|[Hba Hmn]].
  - pose proof (str_compare_lt_trans _ _ _ Hab Hba) as H.
    rewrite str_compare_refl in H. discriminate.
  - subst. rewrite str_compare_refl in Hab. discriminate.
  - subst. rewrite str_compare_refl in Hba. discriminate.
  - f_equal; [done | lia].
Qed.

Lemma sorted_StronglySorted (l : list (string * Z)) :
  StronglySorted tuple_le (sorted l).
Proof. apply StronglySorted_merge_sort; apply _. Qed.

Lemma sorted_Permutation (l : list (string * Z)) : sorted l ≡ₚ l.
Proof. apply merge_sort_Permutation. Qed.

(** [sorted] does not depend on the sorting algorithm: the order is
    total and antisymmetric, so a list has one sorted rearrangement. *)
Lemma sorted_unique (l l' : list (string * Z)) :
  l' ≡ₚ l -> Sorted tuple_le l' -> l' = sorted l.
Proof.
  intros Hp Hs. apply (Sorted_unique tuple_le).
  - exact Hs.
  - apply StronglySorted_Sorted, sorted_StronglySorted.
  - by rewrite sorted_Permutation.
Qed.

Lemma StronglySorted_contiguous (l : list (string * Z)) :
  StronglySorted tuple_le l -> contiguous fst l.
Proof.
  induction 1 as [|x l Hl IH Hx]; [done|].
  split; [|exact IH]. destruct l as [|y l']; [done|].
  destruct (decide (x.1 = y.1)) as [Heq|Hne]; [by left | right].
  assert (Hlt : String.compare x.1 y.1 = Lt).
  { apply Forall_cons in Hx as [Hxy _]. apply tuple_le_spec in Hxy.
    by destruct Hxy as [?|[? _]]. }
  intros (z & Hz & Hin)%list_elem_of_fmap.
  assert (Hyz : y = z \/ tuple_le y z).
  { apply elem_of_cons in Hin as [->|Hin]; [by left | right].
    apply StronglySorted_inv in Hl as [_ Hy].
    by eapply Forall_forall in Hy. }
  assert (Hxz : String.compare x.1 z.1 = Lt).
  { destruct Hyz as [<-|Hyz]; [done|].
    apply tuple_le_spec in Hyz as [Hyz|[Hyz _]].
    - by eapply str_compare_lt_trans.
    - by rewrite <- Hyz. }
  rewrite Hz, str_compare_refl in Hxz. discriminate.
Qed.

Lemma occurrences_nonneg w words : 0 <= occurrences w words.
Proof. unfold occurrences. lia. Qed.

Lemma occurrences_cons_eq w words :
  occurrences w (w :: words) = 1 + occurrences w words.
Proof. unfold occurrences. rewrite filter_cons_True by done. cbn [length]. lia. Qed.

Lemma occurrences_cons_ne w x words :
  x <> w -> occurrences w (x :: words) = occurrences w words.
Proof. intros H. unfold occurrences. by rewrite filter_cons_False. Qed.

Lemma occurrences_zero w words : occurrences w words = 0 <-> w ∉ words.
Proof.
  induction words as [|x words IH].
  - split; [intros _; apply not_elem_of_nil | done].
  - rewrite not_elem_of_cons. destruct (decide (x = w)) as [->|Hne].
    + rewrite occurrences_cons_eq. pose proof (occurrences_nonneg w words).
      split; [lia | tauto].
    + rewrite occurrences_cons_ne by done. rewrite IH.
      split; [intros H; split; [congruence | exact H] | intros [_ H]; exact H].
Qed.

(** The one-pass count. *)
Lemma count_word_spec (counts : gmap string Z) (word : string) :
  count_word counts word
  = Some (<[word := default 0 (counts !! word) + 1]> counts).
Proof.
  unfold count_word. destruct (counts !! word) as [c|] eqn:Hc.
  - rewrite decide_False by done. by rewrite Hc.
  - rewrite decide_True by done. rewrite lookup_insert_eq. cbn.
    by rewrite insert_insert_eq.
Qed.

Lemma count_words_spec (words : list string) (counts : gmap string Z) :
  exists m,
    count_words words counts = Some m
    /\ forall w, m !! w =
         if decide (occurrences w words = 0) then counts !! w
         else Some (default 0 (counts !! w) + occurrences w words).
Proof.
  revert counts. induction words as [|word rest IH]; intros counts.
  - exists counts. split; [done|]. intros w. by rewrite decide_True.
  - cbn [count_words]. rewrite count_word_spec. cbn.
    destruct (IH (<[word := default 0 (counts !! word) + 1]> counts))
      as (m & Hm & Hlookup).
    exists m. split; [exact Hm|]. intros w. rewrite Hlookup.
    pose proof (occurrences_nonneg w rest).
    destruct (decide (word = w)) as [->|Hne].
    + rewrite occurrences_cons_eq, lookup_insert_eq.
      rewrite (decide_False (P := 1 + _ = 0)) by lia.
      case_decide; cbn; f_equal; lia.
    + rewrite occurrences_cons_ne by done.
      by rewrite lookup_insert_ne.
Qed.

(** Step 1 is a map over the words. *)
Lemma word_instances_fmap (text : string) :
  word_instances text = (fun w => (w, 1)) <$> split text.
Proof.
  unfold word_instances.
  enough (H : forall ws acc,
             foldl (fun acc word => acc ++ [(word, 1)]) acc ws
             = acc ++ ((fun w => (w, 1)) <$> ws)) by apply (H _ []).
  induction ws as [|w ws IH]; intros acc; cbn.
  - by rewrite app_nil_r.
  - rewrite IH. by rewrite <- app_assoc.
Qed.

Lemma py_sum_from (a : Z) (l : list Z) : foldl Z.add a l = a + py_sum l.
Proof.
  unfold py_sum. revert a. induction l as [|x l IH]; intros a; cbn [foldl].
  - lia.
  - rewrite (IH (a + x)), (IH (0 + x)). lia.
Qed.

Lemma py_sum_cons (x : Z) (l : list Z) : py_sum (x :: l) = x + py_sum l.
Proof. unfold py_sum at 1. cbn. apply py_sum_from. Qed.

Lemma py_sum_Permutation (l l' : list Z) : l ≡ₚ l' -> py_sum l = py_sum l'.
Proof.
  induction 1 as [|x l l' _ IH|x y l|l l' l'' _ IH1 _ IH2].
  - done.
  - rewrite !py_sum_cons. lia.
  - rewrite !py_sum_cons. lia.
  - congruence.
Qed.

(** The ones emitted for [w] add up to its number of occurrences. *)
Lemma py_sum_instances (w : string) (words : list string) :
  py_sum (snd <$> filter (fun x : string * Z => x.1 = w)
                         ((fun w => (w, 1)) <$> words))
  = occurrences w words.
Proof.
  induction words as [|x words IH]; [done|].
  rewrite fmap_cons. destruct (decide (x = w)) as [->|Hne].
  - rewrite filter_cons_True by done. rewrite fmap_cons, py_sum_cons, IH.
    by rewrite occurrences_cons_eq.
  - rewrite filter_cons_False by done. by rewrite occurrences_cons_ne.
Qed.

(** Step 3 on a list without repeated words. *)
Lemma word_counts_lookup (collated : list (string * list Z)) (w : string) :
  NoDup collated.*1 ->
  word_counts collated !! w
  = py_sum <$> (list_to_map collated : gmap string (list Z)) !! w.
Proof.
  unfold word_counts.
  enough (H : forall l (m : gmap string Z),
             NoDup l.*1 ->
             foldl (fun counts wc => <[wc.1 := py_sum wc.2]> counts) m l !! w
             = match (list_to_map l : gmap string (list Z)) !! w with
               | Some cs => Some (py_sum cs)
               | None => m !! w
               end).
  { intros Hnd. rewrite (H _ ∅ Hnd).
    by destruct (list_to_map collated !! w). }
  induction l as [|[k cs] l IH]; intros m Hnd; [done|].
  cbn in Hnd. apply NoDup_cons in Hnd as [Hk Hnd].
  cbn [foldl]. rewrite IH by done. cbn [list_to_map foldr fst snd].
  destruct (decide (k = w)) as [->|Hne].
  - rewrite lookup_insert_eq.
    apply not_elem_of_list_to_map_1 in Hk. rewrite Hk.
    by rewrite lookup_insert_eq.
  - rewrite (lookup_insert_ne (list_to_map l)) by done.
    destruct (list_to_map l !! w); [done|]. by rewrite lookup_insert_ne.
Qed.

Lemma pipeline_lookup (text : string) (w : string) :
  pipeline text !! w = count_entry (occurrences w (split text)).
Proof.
  unfold pipeline, collated_word_instances.
  set (wi := word_instances text).
  pose proof (StronglySorted_contiguous _ (sorted_StronglySorted wi)) as Hc.
  set (f := fun kv : string * list (string * Z) => (kv.1, snd <$> kv.2)).
  assert (Hfst : (f <$> groupby fst (sorted wi)).*1 = (groupby fst (sorted wi)).*1).
  { rewrite <- list_fmap_compose. done. }
  rewrite word_counts_lookup by (rewrite Hfst; by apply groupby_NoDup).
  assert (Hmem : w ∈ (groupby fst (sorted wi)).*1 <-> w ∈ split text).
  { rewrite groupby_keys, sorted_Permutation. unfold wi.
    rewrite word_instances_fmap, <- list_fmap_compose.
    by rewrite list_fmap_id. }
  unfold count_entry. case_decide as Hocc.
  - apply occurrences_zero in Hocc.
    rewrite (proj1 (not_elem_of_list_to_map _ w)); [done|].
    rewrite Hfst. by rewrite Hmem.
  - assert (Hin : w ∈ (groupby fst (sorted wi)).*1).
    { apply Hmem. destruct (decide (w ∈ split text)) as [|Hn]; [done|].
      by apply occurrences_zero in Hn. }
    apply list_elem_of_fmap in Hin as ([k grp] & -> & Hin).
    pose proof (groupby_group fst _ _ _ Hc Hin) as Hgrp. cbn [fst] in *.
    rewrite (elem_of_list_to_map_1 _ k (snd <$> grp)).
    + cbn. f_equal. rewrite Hgrp.
      rewrite <- (py_sum_instances k (split text)).
      apply py_sum_Permutation. rewrite sorted_Permutation.
      unfold wi. by rewrite word_instances_fmap.
    + rewrite Hfst. by apply groupby_NoDup.
    + apply list_elem_of_fmap. by exists (k, grp).
Qed.

(** C3. For every input text the three-step pipeline (emit [(word, 1)]
    for each word of [text.split()], sort and group by word, sum each
    group) builds the same word-to-count dictionary as the one-pass
    count, which completes without a [KeyError]. *)
Theorem wordcount_pipeline_equiv (text : string) :
  counts_per_word text = Some (pipeline text).
Proof.
  unfold counts_per_word.
  destruct (count_words_spec (split text) ∅) as (m & -> & Hm).
  f_equal. apply map_eq. intros w.
  rewrite Hm, pipeline_lookup, lookup_empty. unfold count_entry.
  case_decide; [done|]. cbn. f_equal.
Qed.

(** ** The pi map and reduce functions *)

Lemma reducefn_from (key : string) (acc : Z * Z) (value : list (Z * Z)) :
  foldl (fun acc v => (acc.1 + v.1, acc.2 + v.2)) acc value
  = (acc.1 + (Pi.reducefn key value).1, acc.2 + (Pi.reducefn key value).2).
Proof.
  unfold Pi.reducefn. revert acc.
  induction value as [|v value IH]; intros [i t]; cbn [foldl fst snd].
  - f_equal; lia.
  - rewrite (IH (i + v.1, t + v.2)), (IH (0 + v.1, 0 + v.2)).
    cbn [fst snd]. f_equal; lia.
Qed.

Lemma reducefn_cons (key : string) (v : Z * Z) (value : list (Z * Z)) :
  Pi.reducefn key (v :: value)
  = (v.1 + (Pi.reducefn key value).1, v.2 + (Pi.reducefn key value).2).
Proof.
  unfold Pi.reducefn at 1. cbn [foldl]. rewrite (reducefn_from key).
  cbn [fst snd]. f_equal; lia.
Qed.

Lemma reducefn_app (key : string) (l1 l2 : list (Z * Z)) :
  Pi.reducefn key (l1 ++ l2)
  = ((Pi.reducefn key l1).1 + (Pi.reducefn key l2).1,
     (Pi.reducefn key l1).2 + (Pi.reducefn key l2).2).
Proof.
  induction l1 as [|v l1 IH].
  - change (Pi.reducefn key []) with (0, 0). cbn [app fst snd].
    by destruct (Pi.reducefn key l2) as [i t].
  - rewrite <- app_comm_cons, !reducefn_cons, IH. cbn [fst snd].
    f_equal; lia.
Qed.

Lemma reducefn_Permutation (key : string) (l l' : list (Z * Z)) :
  l ≡ₚ l' -> Pi.reducefn key l = Pi.reducefn key l'.
Proof.
  induction 1 as [|x l l' _ IH|x y l|l l' l'' _ IH1 _ IH2].
  - done.
  - by rewrite !reducefn_cons, IH.
  - rewrite !reducefn_cons. cbn [fst snd]. f_equal; lia.
  - congruence.
Qed.

Lemma reducefn_concat (key : string) (groups : list (list (Z * Z))) :
  Pi.reducefn key (Pi.reducefn key <$> groups)
  = Pi.reducefn key (concat groups).
Proof.
  induction groups as [|g groups IH]; [done|].
  rewrite fmap_cons, reducefn_cons, IH. cbn [concat].
  by rewrite reducefn_app.
Qed.

(** C4. The pi [reducefn] returns the same [(inside, total)] for every
    reordering of the list of map outputs, and for every way of cutting
    a reordering into groups that are reduced separately and whose
    results are reduced again. *)
Theorem reducefn_order_grouping_independent
  (key : string) (outputs outputs' : list (Z * Z))
  (groups : list (list (Z * Z))) :
  outputs' ≡ₚ outputs ->
  concat groups ≡ₚ outputs ->
  Pi.reducefn key outputs' = Pi.reducefn key outputs
  /\ Pi.reducefn key (Pi.reducefn key <$> groups) = Pi.reducefn key outputs.
Proof.
  intros Hperm Hgroups. split.
  - by apply reducefn_Permutation.
  - rewrite reducefn_concat. by apply reducefn_Permutation.
Qed.

Lemma reducefn_order_grouping_independent_witness :
  Pi.reducefn "totals" [(7, 10); (8, 10); (6, 10)]
  = Pi.reducefn "totals" [(8, 10); (7, 10); (6, 10)]
  /\ Pi.reducefn "totals"
       (Pi.reducefn "totals" <$> [[(7, 10)]; [(8, 10); (6, 10)]])
     = Pi.reducefn "totals" [(8, 10); (7, 10); (6, 10)].
Proof.
  apply reducefn_order_grouping_independent; simpl; apply perm_swap.
Defined.

Lemma Rltb_sqrt (s : R) : (0 <= s)%R -> Rltb (sqrt s) 1 = Rltb s 1.
Proof.
  intros Hs. unfold Rltb.
  destruct (Rlt_dec (sqrt s) 1) as [H|H], (Rlt_dec s 1) as [H'|H'];
    try reflexivity; exfalso.
  - apply H'. rewrite <- sqrt_1 in H.
    apply sqrt_lt_0_alt in H. exact H.
  - apply H. rewrite <- sqrt_1. apply sqrt_lt_1_alt. lra.
Qed.

Lemma sum_squares_nonneg (x y : R) : (0 <= x ^ 2 + y ^ 2)%R.
Proof. pose proof (pow2_ge_0 x). pose proof (pow2_ge_0 y). lra. Qed.

Lemma dart_equiv (draws : nat -> R) (cursor : nat) :
  PiOptimized.dart draws cursor = Pi.dart draws cursor.
Proof.
  unfold PiOptimized.dart, Pi.dart, random.
  by rewrite Rltb_sqrt by apply sum_squares_nonneg.
Qed.

Lemma count_hits_ext (dart dart' : nat -> bool * nat) :
  (forall cursor, dart cursor = dart' cursor) ->
  forall n cursor inside,
    count_hits dart n cursor inside = count_hits dart' n cursor inside.
Proof.
  intros Hd. induction n as [|n IH]; intros cursor inside; [done|].
  cbn [count_hits]. rewrite Hd. destruct (dart' cursor) as [hit cursor'].
  apply IH.
Qed.

(** C5. Over the reals, [sqrt(x**2 + y**2) < 1] holds exactly when
    [x**2 + y**2 < 1]; hence, on the same random draws, the map function
    without the square root judges every dart as the original does and
    yields the same [('totals', (inside, total))]. *)
Theorem mapfn_sqrt_removed :
  (forall x y : R, (sqrt (x ^ 2 + y ^ 2) < 1 <-> x ^ 2 + y ^ 2 < 1)%R)
  /\ (forall (draws : nat -> R) (cursor : nat),
         PiOptimized.dart draws cursor = Pi.dart draws cursor)
  /\ (forall (draws : nat -> R) (key value : Z),
         PiOptimized.mapfn draws key value = Pi.mapfn draws key value).
Proof.
  split; [|split].
  - intros x y. pose proof (Rltb_sqrt _ (sum_squares_nonneg x y)) as H.
    unfold Rltb in H.
    destruct (Rlt_dec (sqrt (x ^ 2 + y ^ 2)) 1), (Rlt_dec (x ^ 2 + y ^ 2) 1);
      try discriminate; tauto.
  - apply dart_equiv.
  - intros draws key value. unfold PiOptimized.mapfn, Pi.mapfn.
    by rewrite (count_hits_ext _ _ (dart_equiv draws)).
Qed.

(** ** The decorator *)

(** C6. For every function [f] of no arguments, calling what
    [print_hi_first(f)] returns prints ['hi'] first, then runs [f] on the
    resulting state, exactly once, and returns what [f] returns; and
    after [@print_hi_first def print_three] the name [print_three] holds
    that wrapper, whose call prints ['hi'] and then ['three']. *)
Theorem print_hi_first_wraps :
  (forall (U A : Type) (f : func0 U A) (w : world U),
      print_hi_first f tt w = f tt (mkWorld (stdout w ++ ["hi"]) (user w)))
  /\ (forall (U A : Type) (f : func0 U A) (w : world (nat * U)),
         let after := print_hi_first (counted f) tt w in
         (user after.2).1 = S (user w).1
         /\ after.1 = (f tt (mkWorld (stdout w ++ ["hi"]) (user w).2)).1)
  /\ (forall (U : Type) (globals : gmap string (func0 U value)) (w : world U),
         let globals' :=
           def_decorated print_hi_first "print_three" print_three
             (def "print_three" print_three globals) in
         globals' !! "print_three" = Some (print_hi_first print_three)
         /\ print_hi_first print_three tt w
            = (VNone, mkWorld (stdout w ++ ["hi"; "three"]) (user w))).
Proof.
  split; [|split].
  - intros U A f w. unfold print_hi_first, py_bind, print. reflexivity.
  - intros U A f w. unfold print_hi_first, py_bind, print, counted. cbn.
    destruct (f tt _) as [r w']. split; reflexivity.
  - intros U globals w. split.
    + unfold def_decorated. apply lookup_insert_eq.
    + unfold print_hi_first, print_three, py_bind, print, py_ret. cbn.
      by rewrite <- app_assoc.
Qed.

(** ** The logger *)

Lemma configured_log_call (lvl : level) (m : method) (msg : string)
  (out : list string) :
  stderr (log_call m msg (setLevel lvl (configured out)))
  = if level_value lvl <=? level_value (method_level m)
    then out ++ [msg] else out.
Proof.
  unfold log_call, log_at, isEnabledFor, getEffectiveLevel.
  destruct lvl, m; reflexivity.
Qed.

(** C7. With the logger as the notebook configures it: after
    [log.setLevel(logging.INFO)] a call of [log.debug] writes nothing and
    a call of [log.info] writes its message, so the three logging cells
    write what the notebook shows; and for any level set on the logger,
    a message logged by one of the five methods reaches the output
    exactly when its level is at least that level. *)
Theorem log_level_filter :
  (forall out : list string,
      let st := setLevel INFO (configured out) in
      stderr (log_call debug "my debug message" st) = out
      /\ stderr (log_call info "my info message" st)
         = out ++ ["my info message"])
  /\ stderr (cell5 (cell4 (cell3 (configured []))))
     = ["my first log message"; "my debug message"; "my info message";
        "my info message"]
  /\ (forall (lvl : level) (m : method) (msg : string) (out : list string),
         let st := setLevel lvl (configured out) in
         (stderr (log_call m msg st) = out ++ [msg]
          <-> level_value lvl <= level_value (method_level m))
         /\ (stderr (log_call m msg st) = out
             <-> ~ level_value lvl <= level_value (method_level m))).
Proof.
  split; [|split].
  - intros out st. subst st. rewrite !configured_log_call. by split.
  - reflexivity.
  - intros lvl m msg out st. subst st. rewrite configured_log_call.
    assert (Hne : out ++ [msg] <> out).
    { intros H. apply (f_equal length) in H. rewrite length_app in H.
      cbn in H. lia. }
    destruct (Z.leb_spec (level_value lvl) (level_value (method_level m)));
      split; split; intros; try done; try lia; exfalso; auto.
Qed.

(** * Further properties *)

(** ** The two [factorial] functions: frames, operations, domain *)

Lemma rewritten_shallow (k d : nat) :
  (d <= k)%nat ->
  result (Rewritten.factorial d (VInt (Z.of_nat k))) = Raises RecursionError.
Proof.
  revert k. induction d as [|d IH]; intros k Hd; [reflexivity|].
  rewrite rewritten_step.
  destruct (Z.ltb_spec (Z.of_nat k) 0) as [?|_]; [lia|].
  destruct (Z.eqb_spec (Z.of_nat k) 0) as [?|_]; [lia|].
  replace (Z.of_nat k - 1) with (Z.of_nat (k - 1)) by lia.
  by rewrite IH by lia.
Qed.

Lemma initial_shallow (k d : nat) :
  (d <= k)%nat ->
  result (Initial.factorial d (VInt (Z.of_nat (S k)))) = Raises RecursionError.
Proof.
  revert k. induction d as [|d IH]; intros k Hd; [reflexivity|].
  rewrite initial_step.
  destruct (Z.eqb_spec (Z.of_nat (S k)) 1) as [?|_]; [lia|].
  replace (Z.of_nat (S k) - 1) with (Z.of_nat (S (k - 1))) by lia.
  by rewrite IH by lia.
Qed.

Lemma rewritten_result (n : Z) (d : nat) :
  0 <= n ->
  result (Rewritten.factorial d (VInt n))
  = if (Z.to_nat n <? d)%nat then Returns (VInt (product_upto n))
    else Raises RecursionError.
Proof.
  intros Hn. rewrite <- (Z2Nat.id n Hn) at 1 3.
  destruct (Nat.ltb_spec (Z.to_nat n) d).
  - by apply rewritten_returns.
  - by apply rewritten_shallow.
Qed.

Lemma initial_result (n : Z) (d : nat) :
  1 <= n ->
  result (Initial.factorial d (VInt n))
  = if (Z.to_nat n <=? d)%nat then Returns (VInt (product_upto n))
    else Raises RecursionError.
Proof.
  intros Hn. replace n with (Z.of_nat (S (Z.to_nat (n - 1)))) at 1 3 by lia.
  destruct (Nat.leb_spec (Z.to_nat n) d).
  - apply initial_returns. lia.
  - apply initial_shallow. lia.
Qed.

(** X1. The rewritten [factorial] needs exactly [n + 1] stack frames on
    an integer [n >= 0]: with more than [n] frames allowed it returns
    the product, with [n] or fewer it ends in [RecursionError]. *)
Theorem factorial_rewritten_frames (n : Z) (d : nat) :
  0 <= n ->
  result (Rewritten.factorial d (VInt n))
  = if (Z.to_nat n <? d)%nat then Returns (VInt (product_upto n))
    else Raises RecursionError.
Proof. apply rewritten_result. Qed.

Lemma factorial_rewritten_frames_witness :
  result (Rewritten.factorial 3 (VInt 3))
  = if (Z.to_nat 3 <? 3)%nat then Returns (VInt (product_upto 3))
    else Raises RecursionError.
Proof. apply factorial_rewritten_frames. lia. Defined.

Lemma rewritten_trace_step (d : nat) (n r : Z) :
  0 < n ->
  result (Rewritten.factorial d (VInt (n - 1))) = Returns (VInt r) ->
  trace (Rewritten.factorial (S d) (VInt n))
  = [EvLt; EvEq; EvSub; EvCall]
    ++ trace (Rewritten.factorial d (VInt (n - 1))) ++ [EvMul].
Proof.
  intros Hn Hr. cbn [Rewritten.factorial]. unfold mbind, M_bind, bind; cbn.
  destruct (Z.ltb_spec n 0) as [?|_]; [lia|]. cbn.
  destruct (Z.eqb_spec n 0) as [?|_]; [lia|]. cbn.
  rewrite Hr. reflexivity.
Qed.

Lemma factorial_trace_succ (k : nat) :
  factorial_trace (S k)
  = [EvLt; EvEq; EvSub; EvCall] ++ factorial_trace k ++ [EvMul].
Proof.
  unfold factorial_trace. cbn [replicate concat].
  rewrite <- !app_assoc. do 2 f_equal.
  f_equal.
  change (EvMul :: replicate k EvMul) with (replicate (S k) EvMul).
  by rewrite replicate_S_end.
Qed.

(** X2. On an integer [n >= 0], with frames enough, the rewritten
    [factorial] performs exactly [n] recursive calls and [n]
    multiplications, and every multiplication comes after the innermost
    call has returned: its operations are those of [factorial_trace]. *)
Theorem factorial_rewritten_operations (n : Z) (d : nat) :
  0 <= n -> (Z.to_nat n < d)%nat ->
  trace (Rewritten.factorial d (VInt n)) = factorial_trace (Z.to_nat n).
Proof.
  intros Hn. rewrite <- (Z2Nat.id n Hn) at 2.
  generalize (Z.to_nat n) as k. clear n Hn.
  intros k. revert d. induction k as [|k IH]; intros d Hd.
  - destruct d as [|d]; [lia | reflexivity].
  - destruct d as [|d]; [lia|].
    assert (Hk : Z.of_nat (S k) - 1 = Z.of_nat k) by lia.
    rewrite (rewritten_trace_step d _ (product_upto (Z.of_nat k))).
    + rewrite Hk, IH by lia. by rewrite factorial_trace_succ.
    + lia.
    + rewrite Hk. apply rewritten_returns. lia.
Qed.

Lemma factorial_rewritten_operations_witness :
  trace (Rewritten.factorial 3 (VInt 2))
  = [EvLt; EvEq; EvSub; EvCall; EvLt; EvEq; EvSub; EvCall; EvLt; EvEq;
     EvMul; EvMul].
Proof. apply (factorial_rewritten_operations 2 3); simpl; lia. Defined.





(** X5. The two versions of [factorial] differ only off the positive
    integers: given one frame more, the rewritten function ends as the
    first one does exactly when [n >= 1]. *)
Theorem factorial_versions_agree (n : Z) (d : nat) :
  result (Initial.factorial d (VInt n))
  = result (Rewritten.factorial (S d) (VInt n))
  <-> 1 <= n.
Proof.
  split.
  - intros H. destruct (Z.lt_ge_cases n 1) as [Hn|Hn]; [|done].
    exfalso. rewrite initial_diverges in H by lia.
    destruct (Z.lt_ge_cases n 0) as [Hneg|Hz].
    + rewrite rewritten_negative in H by done. discriminate.
    + rewrite rewritten_result in H by done.
      replace n with 0 in H by lia. discriminate.
  - intros Hn. rewrite initial_result, rewritten_result by lia.
    destruct (Nat.leb_spec (Z.to_nat n) d), (Nat.ltb_spec (Z.to_nat n) (S d));
      (done || lia).
Qed.

Lemma initial_value (n : Z) (d : nat) :
  1 <= n -> (Z.to_nat n <= d)%nat ->
  result (Initial.factorial d (VInt n)) = Returns (VInt (product_upto n)).
Proof.
  intros Hn Hd. rewrite initial_result by done.
  by destruct (Nat.leb_spec (Z.to_nat n) d); [|lia].
Qed.

Lemma rewritten_value (n : Z) (d : nat) :
  0 <= n -> (Z.to_nat n < d)%nat ->
  result (Rewritten.factorial d (VInt n)) = Returns (VInt (product_upto n)).
Proof.
  intros Hn Hd. rewrite rewritten_result by done.
  by destruct (Nat.ltb_spec (Z.to_nat n) d); [|lia].
Qed.

(** X6. What [run_tests()] prints depends on the frames allowed.
    Against the first [factorial] the line of marks is [.EE..] (the
    boundary and negative-input tests end in an error, the non-integer
    test passes) exactly when at least 10 frames are allowed; against
    the rewritten [factorial] all five tests pass exactly when at least
    11 frames are allowed. *)
Theorem run_tests_marks :
  (forall d : nat, run_tests (Initial.factorial d) = ".EE.." <-> (10 <= d)%nat)
  /\ (forall d : nat,
         run_tests (Rewritten.factorial d) = "....." <-> (11 <= d)%nat).
Proof.
  split; intros d; split.
  - intros H. destruct (le_lt_dec 10 d) as [|Hd]; [done|]. exfalso.
    do 10 (destruct d as [|d]; [vm_compute in H; discriminate|]). lia.
  - intros Hd.
    unfold run_tests, verdict_base_case, verdict_boundary,
      verdict_negative_input, verdict_non_integer, verdict_some_values,
      assertEqual_verdict, assertRaises_verdict.
    rewrite (initial_value 1), (initial_value 2), (initial_value 3),
      (initial_value 4), (initial_value 10) by lia.
    rewrite !initial_diverges by lia.
    destruct d as [|d]; [lia|]. reflexivity.
  - intros H. destruct (le_lt_dec 11 d) as [|Hd]; [done|]. exfalso.
    do 11 (destruct d as [|d]; [vm_compute in H; discriminate|]). lia.
  - intros Hd.
    unfold run_tests, verdict_base_case, verdict_boundary,
      verdict_negative_input, verdict_non_integer, verdict_some_values,
      assertEqual_verdict, assertRaises_verdict.
    rewrite (rewritten_value 0), (rewritten_value 1), (rewritten_value 2),
      (rewritten_value 3), (rewritten_value 4), (rewritten_value 10) by lia.
    destruct d as [|d]; [lia|].
    rewrite rewritten_negative by lia. reflexivity.
Qed.

(** ** The word count: what the dictionary holds *)

(** X7. Both word counts are right: the one-pass count completes, and
    in its dictionary as in the pipeline's a word of [text.split()] maps
    to the number of times it occurs there, which is positive, while any
    other string has no entry. *)
Theorem word_counts_are_occurrences (text : string) :
  exists m : gmap string Z,
    counts_per_word text = Some m
    /\ forall w : string,
         (w ∈ split text ->
          0 < occurrences w (split text)
          /\ m !! w = Some (occurrences w (split text))
          /\ pipeline text !! w = Some (occurrences w (split text)))
         /\ (w ∉ split text -> m !! w = None /\ pipeline text !! w = None).
Proof.
  unfold counts_per_word.
  destruct (count_words_spec (split text) ∅) as (m & Hm & Hlookup).
  exists m. split; [exact Hm|]. intros w.
  rewrite Hlookup, pipeline_lookup, lookup_empty. unfold count_entry.
  pose proof (occurrences_nonneg w (split text)) as Hge.
  pose proof (occurrences_zero w (split text)) as Hzero.
  split; intros Hw; case_decide as Hocc.
  - exfalso. by apply Hzero in Hocc.
  - cbn. split; [lia|]. split; f_equal; lia.
  - done.
  - exfalso. by apply Hocc, Hzero.
Qed.

Lemma groupby_concat {A K : Type} `{EqDecision K} (key : A -> K) (l : list A) :
  mjoin (groupby key l).*2 = l.
Proof.
  induction l as [|x l IH]; [done|]. rewrite groupby_cons.
  destruct (groupby key l) as [|[k grp] groups] eqn:Hg.
  - apply groupby_nil_inv in Hg as ->. done.
  - cbn in IH. case_decide; cbn; by rewrite <- IH.
Qed.

Lemma py_sum_app (l1 l2 : list Z) : py_sum (l1 ++ l2) = py_sum l1 + py_sum l2.
Proof.
  induction l1 as [|x l1 IH]; [done|].
  rewrite <- app_comm_cons, !py_sum_cons, IH. lia.
Qed.

Lemma py_sum_join (ls : list (list Z)) : py_sum (py_sum <$> ls) = py_sum (mjoin ls).
Proof.
  induction ls as [|l ls IH]; [done|].
  rewrite fmap_cons, py_sum_cons, IH. cbn [mjoin list_join].
  by rewrite py_sum_app.
Qed.

Lemma py_sum_ones (words : list string) :
  py_sum (snd <$> ((fun w : string => (w, 1)) <$> words))
  = Z.of_nat (length words).
Proof.
  induction words as [|w words IH]; [done|].
  rewrite !fmap_cons, py_sum_cons, IH. cbn [snd length]. lia.
Qed.

Lemma collated_NoDup (wi : list (string * Z)) :
  NoDup (collated_word_instances wi).*1.
Proof.
  unfold collated_word_instances. rewrite <- list_fmap_compose.
  apply (groupby_NoDup fst), StronglySorted_contiguous, sorted_StronglySorted.
Qed.

Lemma word_counts_fmap (collated : list (string * list Z)) :
  NoDup collated.*1 ->
  word_counts collated = py_sum <$> (list_to_map collated : gmap string (list Z)).
Proof.
  intros Hnd. apply map_eq. intros w.
  by rewrite word_counts_lookup, lookup_fmap.
Qed.

Lemma collated_join (wi : list (string * Z)) :
  mjoin (collated_word_instances wi).*2 = snd <$> sorted wi.
Proof.
  unfold collated_word_instances.
  rewrite <- (groupby_concat fst (sorted wi)) at 2.
  generalize (groupby fst (sorted wi)) as groups.
  induction groups as [|[k grp] groups IH]; [done|].
  cbn. rewrite fmap_app. f_equal. exact IH.
Qed.

(** X8. No word is lost or counted twice: the counts in the pipeline's
    dictionary add up to the number of words of [text.split()]. *)
Theorem word_counts_total (text : string) :
  total_count (pipeline text) = Z.of_nat (length (split text)).
Proof.
  unfold total_count, pipeline.
  set (collated := collated_word_instances (word_instances text)).
  pose proof (collated_NoDup (word_instances text)) as Hnd.
  rewrite word_counts_fmap by exact Hnd.
  rewrite map_to_list_fmap.
  rewrite (py_sum_Permutation _ (py_sum <$> collated.*2)).
  - rewrite py_sum_join. unfold collated. rewrite collated_join.
    rewrite (py_sum_Permutation _ (snd <$> word_instances text)).
    + rewrite word_instances_fmap. apply py_sum_ones.
    + by rewrite sorted_Permutation.
  - rewrite (map_to_list_to_map collated) by exact Hnd.
    rewrite <- !list_fmap_compose. apply reflexive_eq, list_fmap_ext.
    by intros i [k cs] _.
Qed.

Lemma groupby_keys_sorted (l : list (string * Z)) :
  StronglySorted tuple_le l ->
  StronglySorted (fun a b => String.compare a b = Lt) (groupby fst l).*1.
Proof.
  intros Hs. pose proof (StronglySorted_contiguous l Hs) as Hc.
  induction Hs as [|x l Hl IH Hx]; [constructor|].
  pose proof Hc as [_ Hcl]. specialize (IH Hcl). rewrite groupby_cons.
  destruct (groupby fst l) as [|[k grp] groups] eqn:Hg.
  - cbn. repeat constructor.
  - case_decide as Hk; [exact IH|].
    change (StronglySorted (fun a b => String.compare a b = Lt)
              (x.1 :: ((k, grp) :: groups).*1)).
    constructor; [exact IH|].
    apply Forall_forall. intros k' Hk'.
    assert (Hin : k' ∈ fst <$> l).
    { apply (groupby_keys fst). by rewrite Hg. }
    clear Hk'. rename Hin into Hk'.
    pose proof (contiguous_absent fst x l k grp groups Hc Hg Hk) as Habs.
    apply list_elem_of_fmap in Hk' as (z & -> & Hz).
    eapply Forall_forall in Hx; [|exact Hz].
    apply tuple_le_spec in Hx as [Hlt|[Heq _]]; [exact Hlt|].
    exfalso. apply Habs, list_elem_of_fmap. by exists z.
Qed.

Lemma instances_filter_length (w : string) (words : list string) :
  length (filter (fun x : string * Z => x.1 = w)
                 ((fun w : string => (w, 1)) <$> words))
  = length (filter (fun x => x = w) words).
Proof.
  induction words as [|x words IH]; [done|].
  rewrite fmap_cons. destruct (decide (x = w)) as [->|Hne].
  - rewrite !filter_cons_True by done. cbn [length]. by rewrite IH.
  - by rewrite !filter_cons_False by done.
Qed.

Lemma ones_replicate (l : list (string * Z)) :
  Forall (fun x => x.2 = 1) l -> snd <$> l = replicate (length l) 1.
Proof.
  induction 1 as [|[k c] l Hc _ IH]; [done|].
  cbn in *. by rewrite Hc, IH.
Qed.

(** X9. Step 2 yields one entry per distinct word, in strictly
    increasing order of the words, and the list beside a word holds one
    [1] for each of its occurrences, so it is never empty. *)
Theorem collated_shape (text : string) :
  let collated := collated_word_instances (word_instances text) in
  StronglySorted (fun a b => String.compare a b = Lt) collated.*1
  /\ (forall w : string, w ∈ collated.*1 <-> w ∈ split text)
  /\ Forall
       (fun kv : string * list Z =>
          kv.2 = replicate (Z.to_nat (occurrences kv.1 (split text))) 1
          /\ kv.2 <> [])
       collated.
Proof.
  intros collated. subst collated. unfold collated_word_instances.
  set (wi := word_instances text).
  assert (Hfst : ((fun kv : string * list (string * Z) => (kv.1, snd <$> kv.2))
                    <$> groupby fst (sorted wi)).*1 = (groupby fst (sorted wi)).*1).
  { by rewrite <- list_fmap_compose. }
  assert (Hkeys : forall w, w ∈ (groupby fst (sorted wi)).*1 <-> w ∈ split text).
  { intros w. rewrite groupby_keys, sorted_Permutation. unfold wi.
    rewrite word_instances_fmap, <- list_fmap_compose.
    by rewrite list_fmap_id. }
  rewrite Hfst. split; [|split].
  - apply groupby_keys_sorted, sorted_StronglySorted.
  - exact Hkeys.
  - apply Forall_forall. intros [w cs] Hin.
    apply list_elem_of_fmap in Hin as ([k grp] & Heq & Hin).
    injection Heq as -> ->. cbn [fst snd].
    pose proof (StronglySorted_contiguous _ (sorted_StronglySorted wi)) as Hc.
    pose proof (groupby_group fst _ _ _ Hc Hin) as Hgrp.
    assert (Hlen : length grp = length (filter (fun x => x = k) (split text))).
    { rewrite Hgrp, <- instances_filter_length, <- word_instances_fmap.
      apply Permutation_length. by rewrite sorted_Permutation. }
    assert (Hones : Forall (fun x : string * Z => x.2 = 1) grp).
    { rewrite Hgrp. apply Forall_forall. intros x [_ Hx]%list_elem_of_filter.
      rewrite sorted_Permutation in Hx. unfold wi in Hx.
      rewrite word_instances_fmap in Hx.
      by apply list_elem_of_fmap in Hx as (y & -> & _). }
    assert (Hpos : occurrences k (split text) <> 0).
    { rewrite occurrences_zero. intros Hn. apply Hn, Hkeys.
      apply list_elem_of_fmap. by exists (k, grp). }
    rewrite (ones_replicate grp Hones), Hlen.
    unfold occurrences in *. rewrite Nat2Z.id. split; [done|].
    destruct (length (filter (fun x => x = k) (split text))); [lia | done].
Qed.

Lemma reduce_collated (collated : list (string * list Z)) :
  collated ≫= (fun kv => WordCount.reducefn kv.1 kv.2)
  = prod_map Datatypes.id py_sum <$> collated.
Proof.
  induction collated as [|[k cs] collated IH]; [done|].
  cbn. by f_equal.
Qed.

(** X10. Expressed as a map function and a reduce function the word
    count is the same computation: [mapfn] yields the pairs of step 1,
    and [reducefn] applied to each entry of step 2 yields one pair per
    word, with distinct words, that make up the dictionary of step 3. *)
Theorem wordcount_mapreduce (key text : string) :
  let reduced :=
    collated_word_instances (WordCount.mapfn key text)
      ≫= (fun kv => WordCount.reducefn kv.1 kv.2) in
  WordCount.mapfn key text = word_instances text
  /\ NoDup reduced.*1
  /\ list_to_map reduced = pipeline text.
Proof.
  intros reduced. subst reduced.
  assert (Hmap : WordCount.mapfn key text = word_instances text).
  { unfold WordCount.mapfn. by rewrite word_instances_fmap. }
  rewrite Hmap, reduce_collated.
  pose proof (collated_NoDup (word_instances text)) as Hnd.
  split; [done|]. split.
  - rewrite <- list_fmap_compose. exact Hnd.
  - rewrite list_to_map_fmap. unfold pipeline.
    by rewrite word_counts_fmap.
Qed.

(** ** The word count: what counts as a word *)

Lemma has_space_snoc (word : string) (c : ascii) :
  has_space (String.append word (String c EmptyString))
  = has_space word || is_space c.
Proof.
  induction word as [|a word IH].
  - change (String.append EmptyString (String c EmptyString))
      with (String c EmptyString).
    cbn. by rewrite orb_false_r.
  - change (String.append (String a word) (String c EmptyString))
      with (String a (String.append word (String c EmptyString))).
    cbn [has_space]. by rewrite IH, orb_assoc.
Qed.

Lemma append_not_empty (word : string) (c : ascii) :
  String.append word (String c EmptyString) <> EmptyString.
Proof. by destruct word. Qed.

Lemma split_from_words (word text : string) :
  has_space word = false ->
  Forall (fun w => w <> EmptyString /\ has_space w = false)
    (split_from word text).
Proof.
  revert word. induction text as [|c text IH]; intros word Hword.
  - destruct word; cbn; repeat constructor; done.
  - cbn [split_from]. destruct (is_space c) eqn:Hc.
    + apply Forall_app. split; [|by apply IH].
      destruct word; cbn; repeat constructor; done.
    + apply IH. by rewrite has_space_snoc, Hword, Hc.
Qed.

Lemma split_yields_words (text : string) :
  Forall (fun w => w <> EmptyString /\ has_space w = false) (split text).
Proof. by apply split_from_words. Qed.

(** X11. Only real words are counted: a string with an entry in the
    dictionary is not empty and holds no whitespace character. *)
Theorem counted_words_are_words (text w : string) :
  is_Some (pipeline text !! w) -> w <> EmptyString /\ has_space w = false.
Proof.
  intros [c Hc]. rewrite pipeline_lookup in Hc. unfold count_entry in Hc.
  case_decide as Hocc; [done|].
  assert (Hw : w ∈ split text).
  { destruct (decide (w ∈ split text)) as [|Hn]; [done|].
    by apply occurrences_zero in Hn. }
  pose proof (split_yields_words text) as Hall.
  by eapply Forall_forall in Hall.
Qed.

Lemma counted_words_are_words_witness :
  "fox" <> EmptyString /\ has_space "fox" = false.
Proof.
  apply (counted_words_are_words "the quick  fox " "fox").
  vm_compute. eauto.
Defined.

Lemma split_from_blank (word text : string) :
  all_space text = true -> split_from word text = flush_word word.
Proof.
  revert word. induction text as [|c text IH]; intros word; [done|].
  cbn. intros [Hc Hrest]%andb_true_iff. rewrite Hc.
  rewrite IH by done. cbn. by rewrite app_nil_r.
Qed.

(** X12. A text without a word (empty, or of whitespace only) gives the
    empty dictionary, by the one-pass count and by the pipeline. *)
Theorem blank_text_counts_nothing (text : string) :
  all_space text = true ->
  split text = [] /\ counts_per_word text = Some ∅ /\ pipeline text = ∅.
Proof.
  intros Hblank.
  assert (Hsplit : split text = []) by by apply split_from_blank.
  split; [exact Hsplit|]. split.
  - unfold counts_per_word. by rewrite Hsplit.
  - unfold pipeline, word_instances. by rewrite Hsplit.
Qed.

Lemma blank_text_counts_nothing_witness :
  split "   " = [] /\ counts_per_word "   " = Some ∅ /\ pipeline "   " = ∅.
Proof. apply blank_text_counts_nothing. reflexivity. Defined.

Lemma split_from_app (word t1 t2 : string) (c : ascii) :
  is_space c = true ->
  split_from word (String.append t1 (String c t2))
  = split_from word t1 ++ split t2.
Proof.
  intros Hc. revert word. induction t1 as [|a t1 IH]; intros word.
  - change (String.append EmptyString (String c t2)) with (String c t2).
    cbn [split_from]. by rewrite Hc.
  - change (String.append (String a t1) (String c t2))
      with (String a (String.append t1 (String c t2))).
    cbn [split_from]. destruct (is_space a); [|apply IH].
    by rewrite IH, app_assoc.
Qed.

Lemma occurrences_app (w : string) (l1 l2 : list string) :
  occurrences w (l1 ++ l2) = occurrences w l1 + occurrences w l2.
Proof. unfold occurrences. rewrite filter_app, length_app. lia. Qed.

(** X13. Counting distributes over documents: for two texts joined by a
    whitespace character, the dictionary is the merge of the two texts'
    dictionaries, the counts of a common word being added. *)
Theorem wordcount_of_joined_texts (t1 t2 : string) (c : ascii) :
  is_space c = true ->
  pipeline (String.append t1 (String c t2))
  = union_with (fun a b => Some (a + b)) (pipeline t1) (pipeline t2).
Proof.
  intros Hc. apply map_eq. intros w.
  rewrite lookup_union_with, !pipeline_lookup.
  unfold split at 1. rewrite split_from_app by done.
  fold (split t1). rewrite occurrences_app. unfold count_entry.
  pose proof (occurrences_nonneg w (split t1)).
  pose proof (occurrences_nonneg w (split t2)).
  repeat case_decide; cbn; try done; try lia; f_equal; lia.
Qed.

Lemma wordcount_of_joined_texts_witness :
  pipeline (String.append "a b" (String " " "b c"))
  = union_with (fun a b => Some (a + b)) (pipeline "a b") (pipeline "b c").
Proof. apply wordcount_of_joined_texts. reflexivity. Defined.

(** ** The pi estimate: counts, draws and bounds *)

Lemma count_hits_bounds (dart : nat -> bool * nat) (n cursor : nat) (inside : Z) :
  inside <= (count_hits dart n cursor inside).1 <= inside + Z.of_nat n.
Proof.
  revert cursor inside. induction n as [|n IH]; intros cursor inside.
  - cbn. lia.
  - cbn [count_hits]. destruct (dart cursor) as [hit cursor'].
    specialize (IH cursor' (inside + (if hit then 1 else 0))).
    destruct hit; lia.
Qed.

(** X14. A map task never reports more hits than darts: each version of
    the pi [mapfn] yields the single pair [('totals', (inside, value))]
    with [0 <= inside <= value], and [inside = 0] when [value] is zero
    or negative (no dart is thrown). *)
Theorem mapfn_inside_bounds (draws : nat -> R) (key value : Z) :
  (exists inside : Z,
      Pi.mapfn draws key value = [("totals", (inside, value))]
      /\ 0 <= inside <= Z.max 0 value)
  /\ (exists inside : Z,
         PiOptimized.mapfn draws key value = [("totals", (inside, value))]
         /\ 0 <= inside <= Z.max 0 value).
Proof.
  split; eexists; (split; [reflexivity|]); cbn [fst].
  - pose proof (count_hits_bounds (Pi.dart draws) (Z.to_nat value) 0 0). lia.
  - pose proof (count_hits_bounds (PiOptimized.dart draws) (Z.to_nat value) 0 0).
    lia.
Qed.

Lemma count_hits_draws (draws draws' : nat -> R) (n cursor : nat) (inside : Z) :
  (forall i : nat,
      (cursor <= i < cursor + 2 * n)%nat -> draws i = draws' i) ->
  count_hits (Pi.dart draws) n cursor inside
  = count_hits (Pi.dart draws') n cursor inside
  /\ (count_hits (Pi.dart draws) n cursor inside).2 = (cursor + 2 * n)%nat.
Proof.
  revert cursor inside. induction n as [|n IH]; intros cursor inside Hd.
  - cbn. split; [done | lia].
  - cbn [count_hits]. unfold Pi.dart at 1 3 5, random.
    rewrite <- (Hd cursor), <- (Hd (S cursor)) by lia.
    destruct (IH (S (S cursor))
                (inside + (if Rltb (sqrt (draws cursor ^ 2 + draws (S cursor) ^ 2)) 1
                           then 1 else 0))) as [Heq Hcur].
    { intros i Hi. apply Hd. lia. }
    split; [exact Heq|]. rewrite Hcur. lia.
Qed.

(** X15. A map task throwing [value] darts reads exactly the first
    [2 * value] random numbers, two per dart: it leaves the cursor
    there, and two sequences of draws that agree on them give the same
    result. *)
Theorem mapfn_reads_two_draws_per_dart
  (draws draws' : nat -> R) (key value : Z) :
  (forall i : nat, (i < 2 * Z.to_nat value)%nat -> draws i = draws' i) ->
  Pi.mapfn draws key value = Pi.mapfn draws' key value
  /\ (count_hits (Pi.dart draws) (Z.to_nat value) 0 0).2
     = (2 * Z.to_nat value)%nat.
Proof.
  intros Hd.
  destruct (count_hits_draws draws draws' (Z.to_nat value) 0 0) as [Heq Hcur].
  { intros i Hi. apply Hd. lia. }
  split; [|exact Hcur]. unfold Pi.mapfn. by rewrite Heq.
Qed.

Lemma mapfn_reads_two_draws_per_dart_witness :
  Pi.mapfn (fun _ => 0%R) 1 2
  = Pi.mapfn (fun i => if (i <? 4)%nat then 0%R else 1%R) 1 2
  /\ (count_hits (Pi.dart (fun _ => 0%R)) (Z.to_nat 2) 0 0).2
     = (2 * Z.to_nat 2)%nat.
Proof.
  apply mapfn_reads_two_draws_per_dart.
  intros i Hi. simpl in Hi.
  destruct (Nat.ltb_spec i 4); [reflexivity | lia].
Defined.

Lemma reducefn_sums (key : string) (outputs : list (Z * Z)) :
  Pi.reducefn key outputs = (py_sum outputs.*1, py_sum outputs.*2).
Proof.
  induction outputs as [|v outputs IH]; [done|].
  rewrite reducefn_cons, IH, !fmap_cons, !py_sum_cons. done.
Qed.

(** X16. Reducing the pairs yielded by any list of map tasks that each
    throw a non-negative number of darts gives [(inside, total)] with
    [total] the number of darts requested in all and
    [0 <= inside <= total]. *)
Theorem pi_job_totals (tasks : list ((nat -> R) * Z * Z)) :
  Forall (fun t => 0 <= t.2) tasks ->
  let outputs :=
    tasks ≫= (fun t => (Pi.mapfn t.1.1 t.1.2 t.2).*2) in
  (Pi.reducefn "totals" outputs).2 = py_sum tasks.*2
  /\ 0 <= (Pi.reducefn "totals" outputs).1 <= (Pi.reducefn "totals" outputs).2.
Proof.
  intros Hpos outputs. subst outputs.
  induction Hpos as [|[[draws key] value] tasks Hv _ IH].
  - cbn. done.
  - cbn [mbind list_bind fst snd] in *.
    destruct (mapfn_inside_bounds draws key value) as [(inside & Hm & Hin) _].
    rewrite Hm. cbn [fmap list_fmap snd app].
    rewrite reducefn_cons, py_sum_cons. cbn [fst snd].
    destruct IH as [IHt IHi]. lia.
Qed.

Lemma pi_job_totals_witness :
  let outputs :=
    [((fun _ : nat => 0%R), 1, 2); ((fun _ : nat => 1%R), 2, 3)]
      ≫= (fun t => (Pi.mapfn t.1.1 t.1.2 t.2).*2) in
  (Pi.reducefn "totals" outputs).2 = py_sum [2; 3]
  /\ 0 <= (Pi.reducefn "totals" outputs).1 <= (Pi.reducefn "totals" outputs).2.
Proof.
  apply (pi_job_totals
           [((fun _ : nat => 0%R), 1, 2); ((fun _ : nat => 1%R), 2, 3)]).
  repeat constructor; simpl; lia.
Defined.

(** X17. The estimate [4.0 * inside / total] is undefined (a division
    by zero) exactly when no dart was thrown, and lies between 0 and 4
    whenever [0 <= inside <= total]. *)
Theorem pi_approximation_bounds (inside total : Z) :
  0 <= inside <= total ->
  (pi_approximation inside total = None <-> total = 0)
  /\ (forall p : R,
         pi_approximation inside total = Some p -> (0 <= p <= 4)%R).
Proof.
  intros Hin. unfold pi_approximation. split.
  - case_decide; split; (done || congruence).
  - intros p. case_decide as Ht; [done|]. intros [= <-].
    assert (Htot : (0 < IZR total)%R) by (apply IZR_lt; lia).
    assert (Hi0 : (0 <= IZR inside)%R) by (apply IZR_le; lia).
    assert (Hit : (IZR inside <= IZR total)%R) by (apply IZR_le; lia).
    split.
    + apply Rmult_le_pos; [lra|]. left. by apply Rinv_0_lt_compat.
    + apply (Rmult_le_reg_r (IZR total)); [done|].
      unfold Rdiv. rewrite Rmult_assoc, Rinv_l by lra. lra.
Qed.

Lemma pi_approximation_bounds_witness :
  (pi_approximation 3 4 = None <-> 4 = 0)
  /\ (forall p : R, pi_approximation 3 4 = Some p -> (0 <= p <= 4)%R).
Proof. apply pi_approximation_bounds. lia. Defined.







(** ** The decorators *)

Lemma print_hi_first_call (U A : Type) (f : func0 U A) (w : world U) :
  print_hi_first f tt w = f tt (mkWorld (stdout w ++ ["hi"]) (user w)).
Proof. reflexivity. Qed.

(** X19. Decorating [n] times in a row with [print_hi_first] prints
    ['hi'] [n] times and then runs the decorated function once, on the
    state so reached, returning what it returns. *)
Theorem print_hi_first_stacked
  (U A : Type) (n : nat) (f : func0 U A) (w : world U) :
  Nat.iter n print_hi_first f tt w
  = f tt (mkWorld (stdout w ++ replicate n "hi") (user w)).
Proof.
  revert w. induction n as [|n IH]; intros w.
  - cbn. rewrite app_nil_r. by destruct w.
  - rewrite Nat.iter_succ, print_hi_first_call, IH.
    cbn [stdout user]. by rewrite <- app_assoc.
Qed.


Lemma print_args_and_result_wraps_aux
  (str_args : list value -> string)
  (str_kwargs : list (string * value) -> string)
  (str_value : value -> string)
  (func : pyfunction) (args : list value) (kwargs : list (string * value))
  (out : list string) :
  print_args_and_result str_args str_kwargs str_value func args kwargs out
  = match func args kwargs
            (out ++ [String.append "args: " (str_args args);
                     String.append "kwargs: " (str_kwargs kwargs)]) with
    | (Returns v, out') =>
        (Returns v, out' ++ [String.append "result: " (str_value v)])
    | (Raises e, out') => (Raises e, out')
    end.
Proof.
  unfold print_args_and_result, io_bind, io_print, io_ret.
  rewrite <- app_assoc. cbn [app].
  by destruct (func args kwargs _) as [[v|e] out'].
Qed.


Lemma sum_loop_spec (args : list value) (total : Z) :
  Decorated.sum_loop (VInt total) args
  = match ints_of args with
    | Some ns => Returns (VInt (total + py_sum ns))
    | None => Raises TypeError
    end.
Proof.
  revert total. induction args as [|x args IH]; intros total.
  - cbn. f_equal. f_equal. unfold py_sum. cbn. lia.
  - destruct x as [n|s|]; cbn [Decorated.sum_loop py_add ints_of];
      [|reflexivity|reflexivity].
    rewrite IH. destruct (ints_of args) as [ns|]; cbn [fmap option_fmap option_map];
      [|reflexivity].
    rewrite py_sum_cons. do 2 f_equal. lia.
Qed.

(** X22. [sum] returns the sum of its arguments when they are all
    integers ([0] for no argument) and raises [TypeError] as soon as one
    is a string or [None], or when it is given a keyword argument.
    Decorated, a call on integers prints three lines and returns the
    sum; a call that fails prints the two argument lines only. *)
Theorem sum_adds_integers
  (args : list value) (kwargs : list (string * value)) (out : list string) :
  Decorated.sum args kwargs out
  = (match kwargs, ints_of args with
     | [], Some ns => Returns (VInt (py_sum ns))
     | _, _ => Raises TypeError
     end, out)
  /\ forall (str_args : list value -> string)
       (str_kwargs : list (string * value) -> string)
       (str_value : value -> string),
       print_args_and_result str_args str_kwargs str_value
         Decorated.sum args kwargs out
       = match kwargs, ints_of args with
         | [], Some ns =>
             (Returns (VInt (py_sum ns)),
              out ++ [String.append "args: " (str_args args);
                      String.append "kwargs: " (str_kwargs kwargs);
                      String.append "result: " (str_value (VInt (py_sum ns)))])
         | _, _ =>
             (Raises TypeError,
              out ++ [String.append "args: " (str_args args);
                      String.append "kwargs: " (str_kwargs kwargs)])
         end.
Proof.
  assert (Hsum : forall out',
             Decorated.sum args kwargs out'
             = (match kwargs, ints_of args with
                | [], Some ns => Returns (VInt (py_sum ns))
                | _, _ => Raises TypeError
                end, out')).
  { intros out'. unfold Decorated.sum. destruct kwargs as [|kw kwargs].
    - rewrite sum_loop_spec. by destruct (ints_of args).
    - by destruct (ints_of args). }
  split; [apply Hsum|]. intros str_args str_kwargs str_value.
  rewrite print_args_and_result_wraps_aux, Hsum.
  destruct kwargs as [|kw kwargs], (ints_of args) as [ns|]; try reflexivity.
  by rewrite <- app_assoc.
Qed.

(** ** The values of [factorial] *)

Lemma product_upto_pos (k : nat) : 1 <= product_upto (Z.of_nat k).
Proof.
  induction k as [|k IH]; [done|].
  rewrite product_upto_succ. nia.
Qed.

(** X23. The values of the rewritten [factorial] obey the recurrence
    [factorial(n + 1) = (n + 1) * factorial(n)], are at least [1] and
    never decrease: for [n >= 0], with frames enough for [n + 1], both
    calls return, and the results are so related. *)
Theorem factorial_recurrence (n : Z) (d : nat) :
  0 <= n -> (Z.to_nat n + 1 < d)%nat ->
  exists a b : Z,
    result (Rewritten.factorial d (VInt n)) = Returns (VInt a)
    /\ result (Rewritten.factorial d (VInt (n + 1))) = Returns (VInt b)
    /\ b = (n + 1) * a
    /\ 1 <= a <= b.
Proof.
  intros Hn Hd.
  exists (product_upto n), (product_upto (n + 1)).
  rewrite !rewritten_value by lia.
  pose proof (product_upto_pos (Z.to_nat n)) as Hpos.
  pose proof (product_upto_succ (Z.to_nat n)) as Hsucc.
  rewrite Z2Nat.id in Hpos by done.
  replace (Z.of_nat (S (Z.to_nat n))) with (n + 1) in Hsucc by lia.
  rewrite Z2Nat.id in Hsucc by done.
  repeat split; try done; nia.
Qed.

Lemma factorial_recurrence_witness :
  exists a b : Z,
    result (Rewritten.factorial 6 (VInt 3)) = Returns (VInt a)
    /\ result (Rewritten.factorial 6 (VInt (3 + 1))) = Returns (VInt b)
    /\ b = (3 + 1) * a
    /\ 1 <= a <= b.
Proof. apply factorial_recurrence; simpl; lia. Defined.
